(** * agent-ws-example: a verification development

    A shallow embedding of the Go sources of the duplex audio-conversation
    client (message codec, session, handshake client, turn-taking controller,
    audio chunker), with the properties its specification states about them.

    Conventions.
    - A Go [string] and a Go [[]byte] are sequences of bytes: [string] and
      [list byte].
    - A [time.Duration] and a reading of the clock are integers, in
      nanoseconds.
    - A function that returns [(T, error)] returns a sum [error + T]; a
      function that returns [error] returns [option error], [None] being
      Go's [nil].
    - Library code the sources call ([encoding/base64], [encoding/json],
      the websocket connection, [context], [sync.WaitGroup]) is modelled by
      what its documentation says of it, next to the call that uses it. *)

From Stdlib Require Import ZArith Lia.
From Stdlib.Strings Require Import Byte Ascii String.
From stdpp Require Import gmap strings list fin_maps sorting.
From coqutil Require Import Z.bitblast.

#[local] Set Warnings "-register-all".
#[local] Open Scope Z_scope.

(** ** Errors

    The error values that cross the functions of the package.  The first two
    are the package's own sentinels; the others are made by the libraries
    ([encoding/json], [encoding/base64], the websocket connection, [context])
    or by [fmt.Errorf] around one of them. *)

Inductive ctx_error := Canceled | DeadlineExceeded.

Inductive error :=
| ErrSessionClosed                      (* errors.New("session is closed") *)
| ErrUnknownMessageType                 (* errors.New("unknown message type") *)
| SyntaxError                           (* json: the bytes are no JSON text *)
| UnmarshalTypeError (value : string) (gotype : string)
                                        (* json: a value of the wrong kind *)
| CorruptInputError                     (* base64 *)
| TransportError (why : string)         (* websocket dial, read, write, close *)
| RecorderError (why : string)          (* the WAV encoder *)
| CtxError (e : ctx_error)              (* ctx.Err() *)
| Errorf (msg : string) (wrapped : option error).   (* fmt.Errorf *)

(** ** encoding/base64, the standard padded encoding *)

Module base64.

Definition encodeStd : string :=
  "ABCDEFGHIJKLMNOPQRSTUVWXYZabcdefghijklmnopqrstuvwxyz0123456789+/".

Definition padChar : ascii := "="%char.

(** [enc.encode[v]] *)
Definition encode_char (v : Z) : ascii :=
  match String.get (Z.to_nat v) encodeStd with
  | Some c => c
  | None => padChar
  end.

Fixpoint index_of (c : ascii) (s : string) (i : Z) : option Z :=
  match s with
  | EmptyString => None
  | String d s' => if Ascii.eqb c d then Some i else index_of c s' (i + 1)
  end.

(** [enc.decodeMap[c]], [None] standing for the table's 0xff. *)
Definition decodeMap (c : ascii) : option Z := index_of c encodeStd 0.

Definition Z_of_byte (b : byte) : Z := Z.of_N (Byte.to_N b).

(** Go's conversion [byte(v)]: the low eight bits. *)
Definition byte_of_Z (v : Z) : byte :=
  match Byte.of_N (Z.to_N (Z.land v (Z.ones 8))) with
  | Some b => b
  | None => x00
  end.

Definition sextet (val : Z) (shift : Z) : ascii :=
  encode_char (Z.land (Z.shiftr val shift) (Z.ones 6)).

(** [Encoding.Encode]: three bytes make four characters; a remainder of
    one or two bytes is padded with [=]. *)
Fixpoint encode (src : list byte) : list ascii :=
  match src with
  | [] => []
  | [a] =>
      let val := Z.shiftl (Z_of_byte a) 16 in
      [sextet val 18; sextet val 12; padChar; padChar]
  | [a; b] =>
      let val := Z.lor (Z.shiftl (Z_of_byte a) 16) (Z.shiftl (Z_of_byte b) 8) in
      [sextet val 18; sextet val 12; sextet val 6; padChar]
  | a :: b :: c :: rest =>
      let val := Z.lor (Z.lor (Z.shiftl (Z_of_byte a) 16)
                              (Z.shiftl (Z_of_byte b) 8)) (Z_of_byte c) in
      sextet val 18 :: sextet val 12 :: sextet val 6 :: sextet val 0
        :: encode rest
  end.

Definition EncodeToString (src : list byte) : string :=
  string_of_list_ascii (encode src).

Definition is_newline (c : ascii) : bool :=
  Ascii.eqb c "010"%char || Ascii.eqb c "013"%char.

Definition quantum (v0 v1 v2 v3 : Z) : Z :=
  Z.lor (Z.lor (Z.lor (Z.shiftl v0 18) (Z.shiftl v1 12)) (Z.shiftl v2 6)) v3.

(** [Encoding.decodeQuantum], on input from which the line breaks, which
    it skips wherever they stand, are already removed.  A quantum is four
    characters of the alphabet; padding may only end the input, as [x x = =]
    or [x x x =]; the encoding is not strict, so the unused low bits of a
    padded quantum are not looked at. *)
Fixpoint decode (src : list ascii) : option (list byte) :=
  match src with
  | [] => Some []
  | c0 :: c1 :: c2 :: c3 :: rest =>
      match decodeMap c0, decodeMap c1 with
      | Some v0, Some v1 =>
          match decodeMap c2 with
          | Some v2 =>
              match decodeMap c3 with
              | Some v3 =>
                  let val := quantum v0 v1 v2 v3 in
                  match decode rest with
                  | Some out =>
                      Some (byte_of_Z (Z.shiftr val 16) :: byte_of_Z (Z.shiftr val 8)
                              :: byte_of_Z val :: out)
                  | None => None
                  end
              | None =>
                  if Ascii.eqb c3 padChar && bool_decide (rest = []) then
                    let val := quantum v0 v1 v2 0 in
                    Some [byte_of_Z (Z.shiftr val 16); byte_of_Z (Z.shiftr val 8)]
                  else None
              end
          | None =>
              if Ascii.eqb c2 padChar && Ascii.eqb c3 padChar
                 && bool_decide (rest = []) then
                let val := quantum v0 v1 0 0 in
                Some [byte_of_Z (Z.shiftr val 16)]
              else None
          end
      | _, _ => None
      end
  | _ => None
  end.

Definition DecodeString (s : string) : error + list byte :=
  match decode (filter (fun c => is_newline c = false) (list_ascii_of_string s)) with
  | Some out => inr out
  | None => inl CorruptInputError
  end.

(** An entry of the alphabet is read back as its index, and is neither the
    padding nor a line break. *)
Definition alphabet_ok (n : nat) : bool :=
  let c := encode_char (Z.of_nat n) in
  bool_decide (decodeMap c = Some (Z.of_nat n))
  && negb (Ascii.eqb c padChar) && negb (is_newline c).

End base64.

(** ** encoding/json

    The codec works on JSON documents.  The lexical layer of [encoding/json]
    (bytes to document and back: white space, string escapes, number
    literals, the replacement of invalid UTF-8) is not part of this
    development: a frame is either bytes that are no JSON text, or the
    document its bytes spell; a string is the text a string literal denotes,
    taken to be valid UTF-8, which both directions leave as it is; a number
    is the [float64] its literal denotes. *)

(** A finite [float64], taken as an opaque code; [json.Marshal] refuses the
    others. *)
Definition float64 : Type := Z.

Inductive json :=
| JNull
| JBool (b : bool)
| JNumber (n : float64)
| JString (s : string)
| JArray (elems : list json)
| JObject (members : list (string * json)).

(** The contents of a [[]byte] handed to [json.Unmarshal] or made by
    [json.Marshal]. *)
Inductive data :=
| Invalid
| Valid (doc : json).

(** What [json.Unmarshal] stores in an [interface{}], and what the values of
    a [Metadata] map are taken to be: [nil], [bool], [float64], [string],
    [[]interface{}] and [map[string]interface{}], the last two never nil. *)
Inductive value :=
| VNil
| VBool (b : bool)
| VFloat64 (n : float64)
| VString (s : string)
| VSlice (elems : list value)
| VMap (m : gmap string value).

(** [UnmarshalTypeError.Value] *)
Definition kind_of (j : json) : string :=
  match j with
  | JNull => "null"
  | JBool _ => "bool"
  | JNumber _ => "number"
  | JString _ => "string"
  | JArray _ => "array"
  | JObject _ => "object"
  end.

(** Decoding into an [interface{}]; of two members with one key the later
    one stays. *)
Fixpoint value_of (j : json) : value :=
  match j with
  | JNull => VNil
  | JBool b => VBool b
  | JNumber n => VFloat64 n
  | JString s => VString s
  | JArray elems => VSlice (map value_of elems)
  | JObject members =>
      VMap (fold_left (fun m kv => <[kv.1 := kv.2]> m)
                      (map (fun kv => (kv.1, value_of kv.2)) members) ∅)
  end.

(** The order in which [json.Marshal] writes the keys of a map. *)
Definition key_le (x y : string * json) : Prop := String.leb x.1 y.1 = true.

#[global] Instance key_le_dec x y : Decision (key_le x y).
Proof. unfold key_le. apply _. Defined.

(** Encoding an [interface{}] that holds such a value. *)
Fixpoint json_of (v : value) : json :=
  match v with
  | VNil => JNull
  | VBool b => JBool b
  | VFloat64 n => JNumber n
  | VString s => JString s
  | VSlice elems => JArray (map json_of elems)
  | VMap m => JObject (merge_sort key_le (map_to_list (json_of <$> m)))
  end.

(** Decoding into a variable of a string kind ([string], [MessageType],
    [InputFormat]) that holds [cur]: [null] leaves it as it is. *)
Definition into_string (gotype : string) (cur : string) (j : json) : error + string :=
  match j with
  | JNull => inr cur
  | JString s => inr s
  | _ => inl (UnmarshalTypeError (kind_of j) gotype)
  end.

(** ASCII case folding of a key. *)
Definition fold_ascii (c : ascii) : ascii :=
  let n := nat_of_ascii c in
  if (65 <=? n)%nat && (n <=? 90)%nat then ascii_of_nat (n + 32) else c.

Fixpoint foldName (s : string) : string :=
  match s with
  | EmptyString => EmptyString
  | String c s' => String (fold_ascii c) (foldName s')
  end.

(** Whether the decoder binds the object key [key] to the struct field with
    the JSON name [name]: the same bytes, or the same after case folding.
    The names of one struct of this package are distinct and in lower case,
    so at most one of them is bound to a key.  (Of the folding of
    [encoding/json] the ASCII part is modelled.) *)
Definition binds (key name : string) : bool :=
  String.eqb key name || String.eqb (foldName key) (foldName name).

(** The members of an object, decoded one after the other into a struct;
    [field] decodes one member.  The decoder goes on after an error of a
    value's kind and reports the first one; the callers of this package drop
    the variable when there is an error, so stopping at the first is the
    same. *)
Fixpoint object_into {T : Type} (field : string -> json -> T -> error + T)
    (members : list (string * json)) (cur : T) : error + T :=
  match members with
  | [] => inr cur
  | (key, v) :: rest =>
      match field key v cur with
      | inl err => inl err
      | inr cur' => object_into field rest cur'
      end
  end.

Definition struct_into {T : Type} (gotype : string)
    (field : string -> json -> T -> error + T) (cur : T) (j : json) : error + T :=
  match j with
  | JNull => inr cur
  | JObject members => object_into field members cur
  | _ => inl (UnmarshalTypeError (kind_of j) gotype)
  end.

(** ** The messages of the protocol *)

Definition MessageType : Type := string.

Definition MessageTypeStart : MessageType := "start".
Definition MessageTypeAck : MessageType := "ack".
Definition MessageTypeMediaInput : MessageType := "media_input".
Definition MessageTypeDTMF : MessageType := "dtmf".
Definition MessageTypeCustom : MessageType := "custom".
Definition MessageTypeMediaOutput : MessageType := "media_output".
Definition MessageTypeClear : MessageType := "clear".

Definition InputFormat : Type := string.

Definition InputFormatMulaw8000 : InputFormat := "mulaw_8000".
Definition InputFormatPCM16000 : InputFormat := "pcm_16000".
Definition InputFormatPCM24000 : InputFormat := "pcm_24000".
Definition InputFormatPCM44100 : InputFormat := "pcm_44100".

(** [map[string]interface{}]; [None] is the nil map. *)
Definition Metadata : Type := option (gmap string value).

Module Media.
Record t := mk { Payload : string }.
Definition zero : t := mk "".
End Media.

Module StreamConfig.
Record t := mk { InputFormat : InputFormat }.
Definition zero : t := mk "".
End StreamConfig.

Module StartMessage.
Record t := mk { Event : MessageType; StreamID : string;
                 Config : StreamConfig.t; Metadata : Metadata }.
Definition zero : t := mk "" "" StreamConfig.zero None.
End StartMessage.

Module AckMessage.
Record t := mk { Event : MessageType; StreamID : string; Config : StreamConfig.t }.
Definition zero : t := mk "" "" StreamConfig.zero.
End AckMessage.

Module MediaInputMessage.
Record t := mk { Event : MessageType; StreamID : string; Media : Media.t }.
Definition zero : t := mk "" "" Media.zero.
End MediaInputMessage.

Module DTMFMessage.
Record t := mk { Event : MessageType; StreamID : string; DTMF : string }.
Definition zero : t := mk "" "" "".
End DTMFMessage.

Module CustomMessage.
Record t := mk { Event : MessageType; StreamID : string; Metadata : Metadata }.
Definition zero : t := mk "" "" None.
End CustomMessage.

Module MediaOutputMessage.
Record t := mk { Event : MessageType; StreamID : string; Media : Media.t }.
Definition zero : t := mk "" "" Media.zero.
End MediaOutputMessage.

Module ClearMessage.
Record t := mk { Event : MessageType; StreamID : string }.
Definition zero : t := mk "" "".
End ClearMessage.

(** The [Message] interface: a pointer to one of the seven structs. *)
Inductive Message :=
| Start (m : StartMessage.t)
| Ack (m : AckMessage.t)
| MediaInput (m : MediaInputMessage.t)
| DTMF (m : DTMFMessage.t)
| Custom (m : CustomMessage.t)
| MediaOutput (m : MediaOutputMessage.t)
| Clear (m : ClearMessage.t).

(** The method [Type()]: a constant of the struct, whatever its [Event]
    field holds. *)
Definition Message_Type (m : Message) : MessageType :=
  match m with
  | Start _ => MessageTypeStart
  | Ack _ => MessageTypeAck
  | MediaInput _ => MessageTypeMediaInput
  | DTMF _ => MessageTypeDTMF
  | Custom _ => MessageTypeCustom
  | MediaOutput _ => MessageTypeMediaOutput
  | Clear _ => MessageTypeClear
  end.

(** *** The error monad of the decoder *)

#[global] Instance error_ret : MRet (sum error) := fun _ x => inr x.
#[global] Instance error_bind : MBind (sum error) :=
  fun _ _ f m => match m with inl err => inl err | inr x => f x end.
#[global] Instance error_fmap : FMap (sum error) :=
  fun _ _ f m => match m with inl err => inl err | inr x => inr (f x) end.

(** *** json.Marshal of the messages

    A struct is written as an object of its fields, in the order of their
    declaration and under their [json] tags; a nil map is written [null]. *)

Definition json_of_Metadata (md : Metadata) : json :=
  match md with
  | None => JNull
  | Some m => json_of (VMap m)
  end.

Definition json_of_StreamConfig (c : StreamConfig.t) : json :=
  JObject [("input_format", JString (StreamConfig.InputFormat c))].

Definition json_of_Media (m : Media.t) : json :=
  JObject [("payload", JString (Media.Payload m))].

Definition json_of_Message (msg : Message) : json :=
  match msg with
  | Start m =>
      JObject [("event", JString (StartMessage.Event m));
               ("stream_id", JString (StartMessage.StreamID m));
               ("config", json_of_StreamConfig (StartMessage.Config m));
               ("metadata", json_of_Metadata (StartMessage.Metadata m))]
  | Ack m =>
      JObject [("event", JString (AckMessage.Event m));
               ("stream_id", JString (AckMessage.StreamID m));
               ("config", json_of_StreamConfig (AckMessage.Config m))]
  | MediaInput m =>
      JObject [("event", JString (MediaInputMessage.Event m));
               ("stream_id", JString (MediaInputMessage.StreamID m));
               ("media", json_of_Media (MediaInputMessage.Media m))]
  | DTMF m =>
      JObject [("event", JString (DTMFMessage.Event m));
               ("stream_id", JString (DTMFMessage.StreamID m));
               ("dtmf", JString (DTMFMessage.DTMF m))]
  | Custom m =>
      JObject [("event", JString (CustomMessage.Event m));
               ("stream_id", JString (CustomMessage.StreamID m));
               ("metadata", json_of_Metadata (CustomMessage.Metadata m))]
  | MediaOutput m =>
      JObject [("event", JString (MediaOutputMessage.Event m));
               ("stream_id", JString (MediaOutputMessage.StreamID m));
               ("media", json_of_Media (MediaOutputMessage.Media m))]
  | Clear m =>
      JObject [("event", JString (ClearMessage.Event m));
               ("stream_id", JString (ClearMessage.StreamID m))]
  end.

(** With the values above there is nothing [json.Marshal] refuses. *)
Definition json_Marshal (msg : Message) : error + data :=
  inr (Valid (json_of_Message msg)).

(** *** json.Unmarshal into the structs

    A member whose key no field is bound to is skipped; a field no member
    names keeps what it held (the zero value, in a fresh struct). *)

Definition into_Metadata (cur : Metadata) (j : json) : error + Metadata :=
  match j with
  | JNull => inr None
  | JObject members =>
      inr (Some (fold_left (fun m kv => <[kv.1 := value_of kv.2]> m) members
                           (default ∅ cur)))
  | _ => inl (UnmarshalTypeError (kind_of j) "main.Metadata")
  end.

Definition StreamConfig_field (key : string) (v : json) (c : StreamConfig.t)
    : error + StreamConfig.t :=
  if binds key "input_format" then
    f ← into_string "main.InputFormat" (StreamConfig.InputFormat c) v;
    mret (StreamConfig.mk f)
  else mret c.

Definition into_StreamConfig : StreamConfig.t -> json -> error + StreamConfig.t :=
  struct_into "main.StreamConfig" StreamConfig_field.

Definition Media_field (key : string) (v : json) (m : Media.t) : error + Media.t :=
  if binds key "payload" then
    p ← into_string "string" (Media.Payload m) v;
    mret (Media.mk p)
  else mret m.

Definition into_Media : Media.t -> json -> error + Media.t :=
  struct_into "main.Media" Media_field.

Definition StartMessage_field (key : string) (v : json) (m : StartMessage.t)
    : error + StartMessage.t :=
  let '(StartMessage.mk ev sid cfg md) := m in
  if binds key "event" then
    ev' ← into_string "main.MessageType" ev v; mret (StartMessage.mk ev' sid cfg md)
  else if binds key "stream_id" then
    sid' ← into_string "string" sid v; mret (StartMessage.mk ev sid' cfg md)
  else if binds key "config" then
    cfg' ← into_StreamConfig cfg v; mret (StartMessage.mk ev sid cfg' md)
  else if binds key "metadata" then
    md' ← into_Metadata md v; mret (StartMessage.mk ev sid cfg md')
  else mret m.

Definition AckMessage_field (key : string) (v : json) (m : AckMessage.t)
    : error + AckMessage.t :=
  let '(AckMessage.mk ev sid cfg) := m in
  if binds key "event" then
    ev' ← into_string "main.MessageType" ev v; mret (AckMessage.mk ev' sid cfg)
  else if binds key "stream_id" then
    sid' ← into_string "string" sid v; mret (AckMessage.mk ev sid' cfg)
  else if binds key "config" then
    cfg' ← into_StreamConfig cfg v; mret (AckMessage.mk ev sid cfg')
  else mret m.

Definition MediaInputMessage_field (key : string) (v : json) (m : MediaInputMessage.t)
    : error + MediaInputMessage.t :=
  let '(MediaInputMessage.mk ev sid media) := m in
  if binds key "event" then
    ev' ← into_string "main.MessageType" ev v; mret (MediaInputMessage.mk ev' sid media)
  else if binds key "stream_id" then
    sid' ← into_string "string" sid v; mret (MediaInputMessage.mk ev sid' media)
  else if binds key "media" then
    media' ← into_Media media v; mret (MediaInputMessage.mk ev sid media')
  else mret m.

Definition DTMFMessage_field (key : string) (v : json) (m : DTMFMessage.t)
    : error + DTMFMessage.t :=
  let '(DTMFMessage.mk ev sid dtmf) := m in
  if binds key "event" then
    ev' ← into_string "main.MessageType" ev v; mret (DTMFMessage.mk ev' sid dtmf)
  else if binds key "stream_id" then
    sid' ← into_string "string" sid v; mret (DTMFMessage.mk ev sid' dtmf)
  else if binds key "dtmf" then
    dtmf' ← into_string "string" dtmf v; mret (DTMFMessage.mk ev sid dtmf')
  else mret m.

Definition CustomMessage_field (key : string) (v : json) (m : CustomMessage.t)
    : error + CustomMessage.t :=
  let '(CustomMessage.mk ev sid md) := m in
  if binds key "event" then
    ev' ← into_string "main.MessageType" ev v; mret (CustomMessage.mk ev' sid md)
  else if binds key "stream_id" then
    sid' ← into_string "string" sid v; mret (CustomMessage.mk ev sid' md)
  else if binds key "metadata" then
    md' ← into_Metadata md v; mret (CustomMessage.mk ev sid md')
  else mret m.

Definition MediaOutputMessage_field (key : string) (v : json) (m : MediaOutputMessage.t)
    : error + MediaOutputMessage.t :=
  let '(MediaOutputMessage.mk ev sid media) := m in
  if binds key "event" then
    ev' ← into_string "main.MessageType" ev v; mret (MediaOutputMessage.mk ev' sid media)
  else if binds key "stream_id" then
    sid' ← into_string "string" sid v; mret (MediaOutputMessage.mk ev sid' media)
  else if binds key "media" then
    media' ← into_Media media v; mret (MediaOutputMessage.mk ev sid media')
  else mret m.

Definition ClearMessage_field (key : string) (v : json) (m : ClearMessage.t)
    : error + ClearMessage.t :=
  let '(ClearMessage.mk ev sid) := m in
  if binds key "event" then
    ev' ← into_string "main.MessageType" ev v; mret (ClearMessage.mk ev' sid)
  else if binds key "stream_id" then
    sid' ← into_string "string" sid v; mret (ClearMessage.mk ev sid')
  else mret m.

(** Decoding into the struct a [Message] points to. *)
Definition into_Message (msg : Message) (j : json) : error + Message :=
  match msg with
  | Start m => Start <$> struct_into "main.StartMessage" StartMessage_field m j
  | Ack m => Ack <$> struct_into "main.AckMessage" AckMessage_field m j
  | MediaInput m =>
      MediaInput <$> struct_into "main.MediaInputMessage" MediaInputMessage_field m j
  | DTMF m => DTMF <$> struct_into "main.DTMFMessage" DTMFMessage_field m j
  | Custom m => Custom <$> struct_into "main.CustomMessage" CustomMessage_field m j
  | MediaOutput m =>
      MediaOutput <$> struct_into "main.MediaOutputMessage" MediaOutputMessage_field m j
  | Clear m => Clear <$> struct_into "main.ClearMessage" ClearMessage_field m j
  end.

(** The anonymous struct of [UnmarshalMessage], with its one field. *)
Module genericMsg.
Record t := mk { Event : MessageType }.
Definition zero : t := mk "".
End genericMsg.

Definition genericMsg_field (key : string) (v : json) (g : genericMsg.t)
    : error + genericMsg.t :=
  if binds key "event" then
    ev ← into_string "main.MessageType" (genericMsg.Event g) v; mret (genericMsg.mk ev)
  else mret g.

Definition into_genericMsg : genericMsg.t -> json -> error + genericMsg.t :=
  struct_into "struct { Event main.MessageType }" genericMsg_field.

(** [json.Unmarshal(data, &v)]: the bytes are checked to be JSON, then
    decoded into [v]. *)
Definition json_Unmarshal {T : Type} (into : T -> json -> error + T)
    (d : data) (v : T) : error + T :=
  match d with
  | Invalid => inl SyntaxError
  | Valid doc => into v doc
  end.

(** ** UnmarshalMessage *)

Definition UnmarshalMessage (d : data) : error + Message :=
  match json_Unmarshal into_genericMsg d genericMsg.zero with
  | inl err => inl err
  | inr genericMsg =>
      let msg : option Message :=
        let event := genericMsg.Event genericMsg in
        if String.eqb event MessageTypeAck then Some (Ack AckMessage.zero)
        else if String.eqb event MessageTypeMediaOutput then
          Some (MediaOutput MediaOutputMessage.zero)
        else if String.eqb event MessageTypeClear then Some (Clear ClearMessage.zero)
        else if String.eqb event MessageTypeDTMF then Some (DTMF DTMFMessage.zero)
        else if String.eqb event MessageTypeCustom then Some (Custom CustomMessage.zero)
        else None in
      match msg with
      | None => inl ErrUnknownMessageType
      | Some msg =>
          match json_Unmarshal into_Message d msg with
          | inl err => inl err
          | inr msg => inr msg
          end
      end
  end.

(** The first pass of [UnmarshalMessage] alone: what it reads as the
    discriminator of a frame. *)
Definition discriminator (d : data) : error + MessageType :=
  genericMsg.Event <$> json_Unmarshal into_genericMsg d genericMsg.zero.

(** The [Event] field of the struct behind a [Message]. *)
Definition Message_Event (msg : Message) : MessageType :=
  match msg with
  | Start m => StartMessage.Event m
  | Ack m => AckMessage.Event m
  | MediaInput m => MediaInputMessage.Event m
  | DTMF m => DTMFMessage.Event m
  | Custom m => CustomMessage.Event m
  | MediaOutput m => MediaOutputMessage.Event m
  | Clear m => ClearMessage.Event m
  end.

(** The cases of the [switch] in [UnmarshalMessage]. *)
Definition dispatched : list MessageType :=
  [MessageTypeAck; MessageTypeMediaOutput; MessageTypeClear; MessageTypeDTMF;
   MessageTypeCustom].

(** The seven constants of [MessageType]. *)
Definition message_types : list MessageType :=
  [MessageTypeStart; MessageTypeAck; MessageTypeMediaInput; MessageTypeDTMF;
   MessageTypeCustom; MessageTypeMediaOutput; MessageTypeClear].

(** A message to its frame and back, as [Send] and the reader do. *)
Definition decode_encode_Message (msg : Message) : error + Message :=
  json_Marshal msg ≫= UnmarshalMessage.

(** *** Shapes of frames

    The fields the table of the wire protocol requires of a frame of each
    event: present, and of the kind of the field. *)



Definition is_object (j : json) : bool :=
  match j with JObject _ => true | _ => false end.


(** The kinds of JSON value the fields of the structs take: every field
    takes [null]; a string field a string; a struct field an object whose
    members, where a field is bound to them, are taken by that field; a map
    field any object. *)







(** A measure on values, for induction through the maps. *)
Fixpoint value_size (v : value) : nat :=
  match v with
  | VSlice elems => S (foldr (fun e n => value_size e + n)%nat 0%nat elems)
  | VMap m => S (map_fold (fun _ e n => value_size e + n)%nat 0%nat m)
  | _ => 0%nat
  end.


(** ** The connection, the recorder and the clock

    What lies outside the program is a parameter: whether the network takes
    a frame written to an open connection, and whether the WAV encoder takes
    a buffer, each as a function of what was written before. *)

Record environment := {
  network : list data -> data -> option string;
  disk : list (list byte) -> list (list byte) -> list byte -> option string
}.

Module websocket.

Inductive StatusCode := StatusNormalClosure | StatusGoingAway | StatusInternalError.

(** A [*websocket.Conn], by what this program can tell of it: the frames it
    wrote, and whether and with which code it was closed. *)
Record Conn := mk { written : list data; closed : option StatusCode }.

Definition dialed : Conn := mk [] None.

(** [c.Write(ctx, websocket.MessageText, payload)] *)
Definition Write (env : environment) (c : Conn) (payload : data) : option error * Conn :=
  match closed c with
  | Some _ => (Some (TransportError "use of closed network connection"), c)
  | None =>
      match network env (written c) payload with
      | Some why => (Some (TransportError why), c)
      | None => (None, mk (written c ++ [payload]) None)
      end
  end.

(** [c.Close(code, reason)] *)
Definition Close (c : Conn) (code : StatusCode) : option error * Conn :=
  match closed c with
  | Some _ => (Some (TransportError "use of closed network connection"), c)
  | None => (None, mk (written c) (Some code))
  end.

End websocket.

(** A [time.Duration], in nanoseconds. *)
Definition Duration : Type := Z.
Definition Millisecond : Duration := 1000000.
Definition Second : Duration := 1000 * Millisecond.

(** ** session.go: the session, as its callers see it

    The two goroutines of a session are followed step by step further down;
    here a session is what [Send] and [Close] make of it.  [workers] is the
    counter of the wait group: the goroutines that have not returned.  The
    mailbox [readCh] belongs to the step-by-step account; a caller is handed
    what it receives from it. *)

Record session := {
  streamID : string;
  conn : websocket.Conn;
  cancelled : bool;
  workers : nat
}.

Definition pingDeadline : Duration := 20 * Second.

(** [newSession]: the context is not cancelled, the wait group counts the
    reader and the pinger, which are started. *)
Definition newSession (streamID : string) (conn : websocket.Conn) : error + session :=
  inr {| streamID := streamID; conn := conn; cancelled := false;
         workers := 2 |}.

Definition session_StreamID (s : session) : string := streamID s.

(** [Send]: marshal, then write to the connection.  Nothing of the session
    but its connection is looked at. *)
Definition session_Send (env : environment) (s : session) (m : Message)
    : option error * session :=
  match json_Marshal m with
  | inl err => (Some err, s)
  | inr payload =>
      let '(err, conn') := websocket.Write env (conn s) payload in
      (err, {| streamID := streamID s; conn := conn'; cancelled := cancelled s;
               workers := workers s |})
  end.

(** [Close]: cancel, wait for the goroutines, close the connection with the
    code of a normal closure.  [s.wg.Wait()] returns when the counter is at
    zero, which the cancelled goroutines bring about. *)
Definition session_Close (s : session) : option error * session :=
  let cancelled' := true in
  let workers' := 0%nat in
  let '(err, conn') := websocket.Close (conn s) websocket.StatusNormalClosure in
  (err, {| streamID := streamID s; conn := conn'; cancelled := cancelled';
           workers := workers' |}).

(** ** client.go *)

Record Config := {
  BaseURL : string;
  APIKey : string;
  Version : string;
  Config_InputFormat : InputFormat
}.

Record Client := {
  baseURL : string;
  headers : list (string * list string);
  inputFormat : InputFormat
}.

Definition NewClient (cfg : Config) : error + Client :=
  inr {| baseURL := BaseURL cfg;
         headers := [("Authorization", [("Bearer " ++ APIKey cfg)%string]);
                     ("Cartesia-Version", [Version cfg])];
         inputFormat := Config_InputFormat cfg |}.

(** What [NewSession] meets: the outcome of the dial, the identifier drawn,
    and what the [select] after the start message receives, a first message
    of the mailbox or the end of the context. *)
Record handshake := {
  dial : error + websocket.Conn;
  uuid : string;
  first : ctx_error + Message
}.

(** What [NewSession] leaves: the values it returns, and the session it
    made, if it made one, in the state it is in on return. *)
Record NewSession_result := {
  returned : error + session;
  made : option session
}.

Definition NewSession (env : environment) (c : Client) (h : handshake)
    (metadata : Metadata) : NewSession_result :=
  match dial h with
  | inl err => {| returned := inl err; made := None |}
  | inr conn =>
      let streamID := uuid h in
      match newSession streamID conn with
      | inl err => {| returned := inl err; made := None |}
      | inr s =>
          let start := Start (StartMessage.mk MessageTypeStart streamID
                                (StreamConfig.mk (inputFormat c)) metadata) in
          match session_Send env s start with
          | (Some err, s) =>
              let '(_, s) := session_Close s in
              {| returned := inl err; made := Some s |}
          | (None, s) =>
              match first h with
              | inr m =>
                  match m with
                  | Ack ack => {| returned := inr s; made := Some s |}
                  | _ =>
                      {| returned :=
                           inl (Errorf ("expected ack message, but got " ++ Message_Type m)
                                       None);
                         made := Some s |}
                  end
              | inl e =>
                  {| returned := inl (Errorf "handshake timed out: %w" (Some (CtxError e)));
                     made := Some s |}
              end
          end
      end
  end.

(** ** main.go *)

Definition CHUNK_SIZE : Z := 8820.

(** The recorder, by the buffers handed to each of its channels. *)
Record DualChannelRecorder := {
  left_channel : list (list byte);
  right_channel : list (list byte)
}.

Definition WriteLeft (env : environment) (r : DualChannelRecorder) (buf : list byte)
    : option error * DualChannelRecorder :=
  match disk env (left_channel r) (right_channel r) buf with
  | Some why => (Some (RecorderError why), r)
  | None =>
      (None, {| left_channel := left_channel r ++ [buf];
                right_channel := right_channel r |})
  end.

Definition WriteRight (env : environment) (r : DualChannelRecorder) (buf : list byte)
    : option error * DualChannelRecorder :=
  match disk env (left_channel r) (right_channel r) buf with
  | Some why => (Some (RecorderError why), r)
  | None =>
      (None, {| left_channel := left_channel r;
                right_channel := right_channel r ++ [buf] |})
  end.

(** What the functions of [main.go] act on. *)
Record world := {
  sess : session;
  recorder : DualChannelRecorder;
  slept : Duration
}.

Definition with_sess (w : world) (s : session) : world :=
  {| sess := s; recorder := recorder w; slept := slept w |}.

Definition with_recorder (w : world) (r : DualChannelRecorder) : world :=
  {| sess := sess w; recorder := r; slept := slept w |}.

Definition Sleep (d : Duration) (w : world) : world :=
  {| sess := sess w; recorder := recorder w; slept := slept w + d |}.

(** [data[lo:hi]], for [0 <= lo <= hi <= len(data)]. *)
Definition slice {A : Type} (l : list A) (lo hi : Z) : list A :=
  take (Z.to_nat (hi - lo)) (drop (Z.to_nat lo) l).

Definition len {A : Type} (l : list A) : Z := Z.of_nat (length l).

Definition media_input (streamID : string) (chunk : list byte) : Message :=
  MediaInput (MediaInputMessage.mk MessageTypeMediaInput streamID
                (Media.mk (base64.EncodeToString chunk))).

(** The first loop of [sendAudioFile], from [offset] on; [fuel] bounds the
    number of its rounds, and [None] tells that it was too small. *)
Fixpoint send_chunks (env : environment) (fuel : nat) (audioData : list byte)
    (offset : Z) (w : world) : option (option error * world) :=
  match fuel with
  | O => None
  | S fuel' =>
      if offset <? len audioData then
        let end_ := Z.min (offset + CHUNK_SIZE) (len audioData) in
        let chunk := slice audioData offset end_ in
        match WriteLeft env (recorder w) chunk with
        | (Some err, r) =>
            Some (Some (Errorf "write audio error: %w" (Some err)), with_recorder w r)
        | (None, r) =>
            let w := with_recorder w r in
            let mediaMsg := media_input (session_StreamID (sess w)) chunk in
            match session_Send env (sess w) mediaMsg with
            | (Some err, s) =>
                Some (Some (Errorf "send audio error: %w" (Some err)), with_sess w s)
            | (None, s) =>
                let w := Sleep (10 * Millisecond) (with_sess w s) in
                send_chunks env fuel' audioData (offset + CHUNK_SIZE) w
            end
        end
      else Some (None, w)
  end.

(** The second loop: [n] chunks of silence; an error of the recorder is not
    looked at. *)
Fixpoint send_silence (env : environment) (n : nat) (w : world) : option error * world :=
  match n with
  | O => (None, w)
  | S n' =>
      let silenceChunk := repeat x00 (Z.to_nat CHUNK_SIZE) in
      let '(_, r) := WriteLeft env (recorder w) silenceChunk in
      let w := with_recorder w r in
      let silenceMsg := media_input (session_StreamID (sess w)) silenceChunk in
      match session_Send env (sess w) silenceMsg with
      | (Some err, s) => (Some (Errorf "send silence error: %w" (Some err)), with_sess w s)
      | (None, s) => send_silence env n' (Sleep (10 * Millisecond) (with_sess w s))
      end
  end.

(** [sendAudioFile], given what [readWAVData] returned.  A round of the
    first loop moves [offset] on by [CHUNK_SIZE], so there are no more rounds
    than bytes. *)
Definition sendAudioFile (env : environment) (wav : error + list byte) (w : world)
    : option (option error * world) :=
  match wav with
  | inl err => Some (Some (Errorf "read WAV error: %w" (Some err)), w)
  | inr audioData =>
      match send_chunks env (S (length audioData)) audioData 0 w with
      | None => None
      | Some (Some err, w) => Some (Some err, w)
      | Some (None, w) => Some (send_silence env 10 w)
      end
  end.

(** The chunks the first loop cuts, in the order in which it cuts them. *)
Fixpoint chunks_from (fuel : nat) (audioData : list byte) (offset : Z)
    : list (list byte) :=
  match fuel with
  | O => []
  | S fuel' =>
      if offset <? len audioData then
        slice audioData offset (Z.min (offset + CHUNK_SIZE) (len audioData))
          :: chunks_from fuel' audioData (offset + CHUNK_SIZE)
      else []
  end.

(** An environment in which no write fails. *)
Definition reliable (env : environment) : Prop :=
  (forall hist d, network env hist d = None)
  /\ (forall l r buf, disk env l r buf = None).

(** *** listenForResponses

    The loop is a [select] over four sources.  A run of it is told by its
    schedule: for each round, the case the [select] took and the reading of
    the clock in that round. *)

Inductive select_case :=
| MessagesRecv (msg : option Message)  (* msg, ok := <-session.Messages(); None: closed *)
| QuestionComplete                     (* <-questionComplete *)
| TimeAfter                            (* <-time.After(100 * time.Millisecond) *)
| CtxDone (e : ctx_error).             (* <-ctx.Done() *)

(** The variables of the function, and the state of its two channels:
    whether the local [questionComplete] was set to nil, and whether
    [sendQuestion] was closed. *)
Record turn := {
  greetingComplete : bool;
  questionSent : bool;
  agentSpeaking : bool;
  lastAudioTime : Z;
  questionComplete_nil : bool;
  sendQuestion_closed : bool
}.

Definition silenceThreshold : Duration := 2 * Second.
Definition responseTimeout : Duration := 10 * Second.

Inductive log_line :=
| LogDecodeError | LogClear | LogQuestionSent | LogGreetingComplete
| LogResponseComplete | LogNoResponse.

#[global] Instance log_line_eq_dec : EqDecision log_line.
Proof. solve_decision. Defined.

Inductive effect :=
| Log (line : log_line)
| CloseSendQuestion.                   (* close(sendQuestion) *)

#[global] Instance effect_eq_dec : EqDecision effect.
Proof. solve_decision. Defined.

(** How a round ends: the loop goes on, the function returns, closing a
    closed channel panics, or the case could not have been taken (a nil
    channel is never ready). *)
Inductive round :=
| Continue (st : turn)
| Return (err : option error)
| Panic
| NotReady.

Definition listen_init (now : Z) : turn :=
  {| greetingComplete := false; questionSent := false; agentSpeaking := false;
     lastAudioTime := now; questionComplete_nil := false;
     sendQuestion_closed := false |}.

Definition heard (st : turn) (now : Z) : turn :=
  {| greetingComplete := greetingComplete st; questionSent := questionSent st;
     agentSpeaking := true; lastAudioTime := now;
     questionComplete_nil := questionComplete_nil st;
     sendQuestion_closed := sendQuestion_closed st |}.

Definition question_sent (st : turn) (now : Z) : turn :=
  {| greetingComplete := greetingComplete st; questionSent := true;
     agentSpeaking := false; lastAudioTime := now;
     questionComplete_nil := questionComplete_nil st;
     sendQuestion_closed := sendQuestion_closed st |}.

Definition question_channel_nil (st : turn) : turn :=
  {| greetingComplete := greetingComplete st; questionSent := questionSent st;
     agentSpeaking := agentSpeaking st; lastAudioTime := lastAudioTime st;
     questionComplete_nil := true;
     sendQuestion_closed := sendQuestion_closed st |}.

Definition greeting_done (st : turn) : turn :=
  {| greetingComplete := true; questionSent := questionSent st;
     agentSpeaking := false; lastAudioTime := lastAudioTime st;
     questionComplete_nil := questionComplete_nil st;
     sendQuestion_closed := true |}.

(** One round of the loop. *)
Definition listen_step (env : environment) (now : Z) (c : select_case) (st : turn)
    (r : DualChannelRecorder) : round * DualChannelRecorder * list effect :=
  match c with
  | MessagesRecv None =>
      (Return (Some (Errorf "message channel closed" None)), r, [])
  | MessagesRecv (Some (MediaOutput m)) =>
      match base64.DecodeString (Media.Payload (MediaOutputMessage.Media m)) with
      | inl err => (Continue st, r, [Log LogDecodeError])
      | inr audioData =>
          if 0 <? len audioData then
            match WriteRight env r audioData with
            | (Some err, r') =>
                (Return (Some (Errorf "write audio error: %w" (Some err))), r', [])
            | (None, r') => (Continue (heard st now), r', [])
            end
          else (Continue st, r, [])
      end
  | MessagesRecv (Some (Clear _)) => (Continue st, r, [Log LogClear])
  | MessagesRecv (Some _) => (Continue st, r, [])
  | QuestionComplete =>
      if questionComplete_nil st then (NotReady, r, [])
      else if negb (questionSent st) then
        (Continue (question_channel_nil (question_sent st now)), r, [Log LogQuestionSent])
      else (Continue (question_channel_nil st), r, [])
  | TimeAfter =>
      let elapsed := now - lastAudioTime st in
      let greeting :=
        agentSpeaking st && negb (greetingComplete st) && (silenceThreshold <? elapsed) in
      if greeting && sendQuestion_closed st then
        (Panic, r, [Log LogGreetingComplete])
      else
        let st1 := if greeting then greeting_done st else st in
        let eff1 := if greeting then [Log LogGreetingComplete; CloseSendQuestion] else [] in
        if greetingComplete st1 && questionSent st1 && agentSpeaking st1
           && (silenceThreshold <? elapsed) then
          (Return None, r, eff1 ++ [Log LogResponseComplete])
        else if greetingComplete st1 && questionSent st1 && negb (agentSpeaking st1)
                && (responseTimeout <? elapsed) then
          (Return None, r, eff1 ++ [Log LogNoResponse])
        else (Continue st1, r, eff1)
  | CtxDone e => (Return (Some (CtxError e)), r, [])
  end.

(** How a run stands at the end of a schedule. *)
Inductive run_end :=
| Waiting (st : turn)                  (* in the [select], no case taken yet *)
| Returned (err : option error)
| Panicked
| Unschedulable.

(** The rounds of a schedule, from the state [st]; the effects come with the
    clock reading of their round. *)
Fixpoint listen_run (env : environment) (sched : list (Z * select_case)) (st : turn)
    (r : DualChannelRecorder) : run_end * DualChannelRecorder * list (Z * effect) :=
  match sched with
  | [] => (Waiting st, r, [])
  | (now, c) :: rest =>
      match listen_step env now c st r with
      | (Continue st', r', eff) =>
          let '(e, r'', effs) := listen_run env rest st' r' in
          (e, r'', map (pair now) eff ++ effs)
      | (Return err, r', eff) => (Returned err, r', map (pair now) eff)
      | (Panic, r', eff) => (Panicked, r', map (pair now) eff)
      | (NotReady, r', eff) => (Unschedulable, r', map (pair now) eff)
      end
  end.

(** [listenForResponses], entered when the clock reads [start]. *)
Definition listenForResponses (env : environment) (start : Z)
    (sched : list (Z * select_case)) (r : DualChannelRecorder)
    : run_end * DualChannelRecorder * list (Z * effect) :=
  listen_run env sched (listen_init start) r.

(** The clock readings at which [sendQuestion] was closed. *)
Definition closings (effs : list (Z * effect)) : list Z :=
  omap (fun e => match e.2 with CloseSendQuestion => Some e.1 | _ => None end) effs.

Definition logged (line : log_line) (effs : list (Z * effect)) : list Z :=
  omap (fun e => match e.2 with
                 | Log l => if decide (l = line) then Some e.1 else None
                 | _ => None
                 end) effs.

(** An environment in which nothing fails. *)
Definition quiet_env : environment :=
  {| network := fun _ _ => None; disk := fun _ _ _ => None |}.

Definition empty_recorder : DualChannelRecorder :=
  {| left_channel := []; right_channel := [] |}.

(** A frame of agent audio: two bytes of sound. *)
Definition agent_media : Message :=
  MediaOutput (MediaOutputMessage.mk MessageTypeMediaOutput "stream"
                 (Media.mk (base64.EncodeToString [x01; x00]))).

(** Timer rounds every 100 ms, [n] of them, the first at [from] ms. *)
Definition timer_rounds (from : Z) (n : nat) : list (Z * select_case) :=
  map (fun k => ((from + 100 * k) * Millisecond, TimeAfter)) (seqZ 0 (Z.of_nat n)).

(** The scripted run: agent media when the clock reads 0 and 0.5 s, and
    nothing but the timer from then on, up to 3 s. *)
Definition greeting_script : list (Z * select_case) :=
  [(0, MessagesRecv (Some agent_media))]
  ++ timer_rounds 100 4
  ++ [(500 * Millisecond, MessagesRecv (Some agent_media))]
  ++ timer_rounds 600 25.



Definition is_close (e : effect) : bool :=
  match e with CloseSendQuestion => true | _ => false end.


(** ** session.go: the goroutines, step by step

    A session runs two goroutines, [read] and [ping], beside its callers:
    the one that calls [Close] and the one that receives from the mailbox.
    They share the context made by [newSession], the wait group, the mailbox
    and the connection.  Each goroutine is a small machine whose states are
    the places where it can be between two accesses to what is shared; a run
    is a sequence of moves, one goroutine at a time. *)

Module goroutines.

(** Where [read] is. *)
Inductive reader :=
| RSelect               (* at the first select of the loop *)
| RRead                 (* in s.conn.Read(ctx) *)
| RPush (m : Message)   (* in the select that sends m to s.readCh *)
| RCancel               (* returning; the deferred s.cancel() comes next *)
| RDone                 (* the deferred s.wg.Done() comes next *)
| RExited.

(** Where [ping] is. *)
Inductive pinger :=
| PSelect               (* in the select of the loop *)
| PCancel               (* returning; the deferred s.cancel() comes next *)
| PDone                 (* the deferred s.wg.Done() comes next *)
| PStop                 (* the deferred ticker.Stop() comes next *)
| PExited.

(** Where the caller of [Close] is. *)
Inductive closer :=
| CNotCalled
| CWait                 (* s.cancel() done; in s.wg.Wait() *)
| CClose                (* s.wg.Wait() has returned; s.conn.Close comes next *)
| CReturned (err : option error).

(** The shared state, and three histories kept for the statements: the
    frames [conn.Read] has returned, the messages sent to the mailbox, and
    the messages received from it. *)
Record system := {
  ctx_done : bool;                (* the context of newSession is cancelled *)
  wg : nat;                       (* the counter of s.wg *)
  mailbox : list Message;         (* the buffer of s.readCh, oldest first *)
  socket : websocket.Conn;
  rd : reader;
  pg : pinger;
  cl : closer;
  frames : list data;
  pushed : list Message;
  received : list Message
}.

(** The capacity of [readCh]. *)
Definition capacity : nat := 10.

(** After [newSession]. *)
Definition init (conn : websocket.Conn) : system :=
  {| ctx_done := false; wg := 2; mailbox := []; socket := conn;
     rd := RSelect; pg := PSelect; cl := CNotCalled;
     frames := []; pushed := []; received := [] |}.

Inductive move :=
| ReaderSelect                      (* the first select: ctx.Done() or default *)
| ReaderRead (res : error + data)   (* s.conn.Read(ctx) returns *)
| ReaderPush                        (* s.readCh <- m *)
| ReaderGiveUp                      (* <-ctx.Done(), in the second select *)
| ReaderCancel
| ReaderDone
| PingerTick (res : option error)   (* <-ticker.C, and s.conn.Ping(ctx) *)
| PingerStop                        (* <-ctx.Done() *)
| PingerCancel
| PingerDone
| PingerTickerStop
| CloseCancel                       (* Close is called: s.cancel() *)
| CloseWait                         (* s.wg.Wait() returns *)
| CloseConn                         (* s.conn.Close(StatusNormalClosure, "") *)
| Receive.                          (* a receive from s.Messages() *)

Definition set_reader (r : reader) (s : system) : system :=
  {| ctx_done := ctx_done s; wg := wg s; mailbox := mailbox s; socket := socket s;
     rd := r; pg := pg s; cl := cl s;
     frames := frames s; pushed := pushed s; received := received s |}.

Definition set_pinger (p : pinger) (s : system) : system :=
  {| ctx_done := ctx_done s; wg := wg s; mailbox := mailbox s; socket := socket s;
     rd := rd s; pg := p; cl := cl s;
     frames := frames s; pushed := pushed s; received := received s |}.

Definition set_closer (c : closer) (s : system) : system :=
  {| ctx_done := ctx_done s; wg := wg s; mailbox := mailbox s; socket := socket s;
     rd := rd s; pg := pg s; cl := c;
     frames := frames s; pushed := pushed s; received := received s |}.

(** [cancel()] *)
Definition cancel (s : system) : system :=
  {| ctx_done := true; wg := wg s; mailbox := mailbox s; socket := socket s;
     rd := rd s; pg := pg s; cl := cl s;
     frames := frames s; pushed := pushed s; received := received s |}.

(** [s.wg.Done()] *)
Definition wg_Done (s : system) : system :=
  {| ctx_done := ctx_done s; wg := pred (wg s); mailbox := mailbox s; socket := socket s;
     rd := rd s; pg := pg s; cl := cl s;
     frames := frames s; pushed := pushed s; received := received s |}.

Definition read_frame (d : data) (s : system) : system :=
  {| ctx_done := ctx_done s; wg := wg s; mailbox := mailbox s; socket := socket s;
     rd := rd s; pg := pg s; cl := cl s;
     frames := frames s ++ [d]; pushed := pushed s; received := received s |}.

Definition push (m : Message) (s : system) : system :=
  {| ctx_done := ctx_done s; wg := wg s; mailbox := mailbox s ++ [m]; socket := socket s;
     rd := rd s; pg := pg s; cl := cl s;
     frames := frames s; pushed := pushed s ++ [m]; received := received s |}.

Definition pop (m : Message) (rest : list Message) (s : system) : system :=
  {| ctx_done := ctx_done s; wg := wg s; mailbox := rest; socket := socket s;
     rd := rd s; pg := pg s; cl := cl s;
     frames := frames s; pushed := pushed s; received := received s ++ [m] |}.

Definition set_socket (c : websocket.Conn) (s : system) : system :=
  {| ctx_done := ctx_done s; wg := wg s; mailbox := mailbox s; socket := c;
     rd := rd s; pg := pg s; cl := cl s;
     frames := frames s; pushed := pushed s; received := received s |}.

(** One move; [None] when the goroutine is not at a place where it can make
    it, or the move is not ready: a send to a full mailbox, a receive from
    an empty one, a wait on a counter that is not zero, a [ctx.Done()] not
    yet closed. *)
Definition step (s : system) (mv : move) : option system :=
  match mv, rd s, pg s, cl s with
  | ReaderSelect, RSelect, _, _ =>
      Some (set_reader (if ctx_done s then RCancel else RRead) s)
  | ReaderRead (inl err), RRead, _, _ => Some (set_reader RCancel s)
  | ReaderRead (inr payload), RRead, _, _ =>
      match UnmarshalMessage payload with
      | inl err => Some (set_reader RSelect (read_frame payload s))
      | inr m => Some (set_reader (RPush m) (read_frame payload s))
      end
  | ReaderPush, RPush m, _, _ =>
      if decide (length (mailbox s) < capacity)%nat
      then Some (set_reader RSelect (push m s)) else None
  | ReaderGiveUp, RPush m, _, _ =>
      if ctx_done s then Some (set_reader RCancel s) else None
  | ReaderCancel, RCancel, _, _ => Some (set_reader RDone (cancel s))
  | ReaderDone, RDone, _, _ => Some (set_reader RExited (wg_Done s))
  | PingerTick res, _, PSelect, _ => Some s
  | PingerStop, _, PSelect, _ =>
      if ctx_done s then Some (set_pinger PCancel s) else None
  | PingerCancel, _, PCancel, _ => Some (set_pinger PDone (cancel s))
  | PingerDone, _, PDone, _ => Some (set_pinger PStop (wg_Done s))
  | PingerTickerStop, _, PStop, _ => Some (set_pinger PExited s)
  | CloseCancel, _, _, CNotCalled => Some (set_closer CWait (cancel s))
  | CloseWait, _, _, CWait =>
      if decide (wg s = 0%nat) then Some (set_closer CClose s) else None
  | CloseConn, _, _, CClose =>
      let '(err, c) := websocket.Close (socket s) websocket.StatusNormalClosure in
      Some (set_closer (CReturned err) (set_socket c s))
  | Receive, _, _, _ =>
      match mailbox s with
      | m :: rest => Some (pop m rest s)
      | [] => None
      end
  | _, _, _, _ => None
  end.

(** A run: the moves one after the other. *)
Fixpoint exec (s : system) (moves : list move) : option system :=
  match moves with
  | [] => Some s
  | mv :: rest =>
      match step s mv with
      | Some s' => exec s' rest
      | None => None
      end
  end.

(** The messages of a sequence of frames: those [UnmarshalMessage] decodes,
    in the order of the frames. *)
Definition decoded (fs : list data) : list Message :=
  omap (fun d => match UnmarshalMessage d with
                 | inr m => Some m
                 | inl _ => None
                 end) fs.

(** The loop of [read] is left: [read] is returning or has returned. *)
Definition reader_left (r : reader) : bool :=
  match r with RCancel | RDone | RExited => true | _ => false end.

(** [read] is past its deferred [s.cancel()]; so is [ping]. *)
Definition reader_cancelled (r : reader) : bool :=
  match r with RDone | RExited => true | _ => false end.

Definition pinger_cancelled (p : pinger) : bool :=
  match p with PDone | PStop | PExited => true | _ => false end.

(** [read] has called [s.wg.Done()]; so has [ping]. *)
Definition reader_exited (r : reader) : bool :=
  match r with RExited => true | _ => false end.

Definition pinger_exited (p : pinger) : bool :=
  match p with PStop | PExited => true | _ => false end.

(** [Close] was called; it is past [s.wg.Wait()]; it has returned. *)
Definition close_called (c : closer) : bool :=
  match c with CNotCalled => false | _ => true end.

Definition wait_passed (c : closer) : bool :=
  match c with CClose | CReturned _ => true | _ => false end.

Definition close_returned (c : closer) : bool :=
  match c with CReturned _ => true | _ => false end.

End goroutines.

Module invariants.
Import goroutines.

(** What each goroutine still owes the wait group. *)
Definition live_reader (r : reader) : nat := if reader_exited r then 0 else 1.
Definition live_pinger (p : pinger) : nat := if pinger_exited p then 0 else 1.

(** The wait group counts the goroutines that have not called [Done]; who
    is past a [cancel()] finds the context cancelled; [Wait] is passed only
    at zero; the connection is closed by [Close] alone, on its last step. *)
Definition synchronised (s : system) : Prop :=
  wg s = (live_reader (rd s) + live_pinger (pg s))%nat
  /\ (reader_cancelled (rd s) = true -> ctx_done s = true)
  /\ (pinger_cancelled (pg s) = true -> ctx_done s = true)
  /\ (close_called (cl s) = true -> ctx_done s = true)
  /\ (wait_passed (cl s) = true -> wg s = 0%nat)
  /\ websocket.closed (socket s)
     = if close_returned (cl s) then Some websocket.StatusNormalClosure else None.

(** The decoded frames are the messages sent to the mailbox and, after
    them, the one [read] holds or has given up; the mailbox is a queue
    within its capacity. *)
Definition ordered (s : system) : Prop :=
  (exists held,
      decoded (frames s) = pushed s ++ held
      /\ match rd s with
         | RPush m => held = [m]
         | RSelect | RRead => held = []
         | _ => (length held <= 1)%nat
         end)
  /\ pushed s = received s ++ mailbox s
  /\ (length (mailbox s) <= capacity)%nat.

End invariants.

(** ** Concrete inputs *)

Definition example_client : Client :=
  {| baseURL := "wss://agents.cartesia.ai";
     headers := [("Authorization", ["Bearer key"]); ("Cartesia-Version", ["2025-04-16"])];
     inputFormat := InputFormatPCM44100 |}.

(** The server answers the start message with agent audio instead of an
    acknowledgment. *)
Definition media_first : handshake :=
  {| dial := inr websocket.dialed; uuid := "stream"; first := inr agent_media |}.

(** The server does not answer before the deadline of the context. *)
Definition no_answer : handshake :=
  {| dial := inr websocket.dialed; uuid := "stream"; first := inl DeadlineExceeded |}.

(** The network turns the start message down. *)
Definition refusing_env : environment :=
  {| network := fun _ _ => Some "broken pipe"; disk := fun _ _ _ => None |}.

Definition example_session : session :=
  {| streamID := "stream"; conn := websocket.dialed; cancelled := false; workers := 2 |}.

Definition clear_message : Message := Clear (ClearMessage.mk MessageTypeClear "stream").

Definition start_message : Message :=
  Start (StartMessage.mk MessageTypeStart "stream"
           (StreamConfig.mk InputFormatPCM44100) None).


(** An acknowledgment without stream identifier and configuration. *)
Definition bare_ack : data := Valid (JObject [("event", JString "ack")]).


Definition example_world : world :=
  {| sess := example_session; recorder := empty_recorder; slept := 0 |}.

(** 100,000 bytes of silence. *)
Definition silence_100000 : list byte := repeat x00 (Z.to_nat 100000).



(** A run in which three frames arrive, the second of an unknown type, and
    then the read fails. *)
Definition frames_run : list goroutines.move :=
  [goroutines.ReaderSelect;
   goroutines.ReaderRead (inr (Valid (json_of_Message clear_message)));
   goroutines.ReaderPush;
   goroutines.ReaderSelect;
   goroutines.ReaderRead (inr (Valid (json_of_Message start_message)));
   goroutines.ReaderSelect;
   goroutines.ReaderRead (inr (Valid (json_of_Message agent_media)));
   goroutines.ReaderPush;
   goroutines.Receive;
   goroutines.ReaderSelect].

Definition read_run : list goroutines.move :=
  frames_run ++ goroutines.ReaderRead (inl (TransportError "connection reset"))
             :: [goroutines.PingerTick None].

Definition frames_run_end : goroutines.system :=
  Eval vm_compute in
    default (goroutines.init websocket.dialed)
            (goroutines.exec (goroutines.init websocket.dialed) frames_run).

Definition read_run_end : goroutines.system :=
  Eval vm_compute in
    default (goroutines.init websocket.dialed)
            (goroutines.exec (goroutines.init websocket.dialed) read_run).

(** * Further definitions

    The rest of the package: what the properties of the second part of the
    theorems are about. *)



(** ** Shutting a session down

    The moves that take a session, from wherever it is, to the return of
    [Close]: [Close] cancels, [read] and [ping] see the cancellation where
    they are and run their deferred calls, [Close] passes the wait and
    closes the connection.  No receive from the mailbox is among them.
    Where [read] is inside [conn.Read], that call returns with the error of
    the cancelled context. *)

Module shutdown.
Import goroutines.

Definition reader_moves (r : reader) : list move :=
  match r with
  | RSelect => [ReaderSelect; ReaderCancel; ReaderDone]
  | RRead => [ReaderRead (inl (CtxError Canceled)); ReaderCancel; ReaderDone]
  | RPush _ => [ReaderGiveUp; ReaderCancel; ReaderDone]
  | RCancel => [ReaderCancel; ReaderDone]
  | RDone => [ReaderDone]
  | RExited => []
  end.

Definition pinger_moves (p : pinger) : list move :=
  match p with
  | PSelect => [PingerStop; PingerCancel; PingerDone]
  | PCancel => [PingerCancel; PingerDone]
  | PDone => [PingerDone]
  | PStop | PExited => []
  end.

Definition moves (s : system) : list move :=
  match cl s with
  | CNotCalled =>
      CloseCancel :: reader_moves (rd s) ++ pinger_moves (pg s) ++ [CloseWait; CloseConn]
  | CWait => reader_moves (rd s) ++ pinger_moves (pg s) ++ [CloseWait; CloseConn]
  | CClose => [CloseConn]
  | CReturned _ => []
  end.

End shutdown.

(** A run in which eleven frames arrive and nothing is received: ten
    messages are queued, and [read] holds the eleventh. *)
Definition full_run : list goroutines.move :=
  concat (replicate 10
            [goroutines.ReaderSelect;
             goroutines.ReaderRead (inr (Valid (json_of_Message clear_message)));
             goroutines.ReaderPush])
  ++ [goroutines.ReaderSelect;
      goroutines.ReaderRead (inr (Valid (json_of_Message clear_message)))].

Definition full_run_end : goroutines.system :=
  Eval vm_compute in
    default (goroutines.init websocket.dialed)
            (goroutines.exec (goroutines.init websocket.dialed) full_run).

(** The start message [NewSession] sends, as a frame. *)
Definition start_frame (c : Client) (h : handshake) (metadata : Metadata) : data :=
  Valid (json_of_Message
           (Start (StartMessage.mk MessageTypeStart (uuid h)
                     (StreamConfig.mk (inputFormat c)) metadata))).

(** The server acknowledges, under another stream identifier and another
    input format than the ones sent. *)
Definition foreign_ack : handshake :=
  {| dial := inr websocket.dialed; uuid := "stream";
     first := inr (Ack (AckMessage.mk MessageTypeAck "other"
                          (StreamConfig.mk InputFormatMulaw8000))) |}.

(** ** main.go: the samples of the recorder *)

(** [binary.LittleEndian.Uint16(b)]: the first two bytes of [b], the low one
    first.  On a slice of fewer than two bytes it panics; [bytesToInt16]
    does not get there. *)
Definition Uint16 (b : list byte) : Z :=
  match b with
  | b0 :: b1 :: _ => Z.lor (base64.Z_of_byte b0) (Z.shiftl (base64.Z_of_byte b1) 8)
  | _ => 0
  end.

(** The conversion [int16(v)]: the sixteen low bits, as a signed number. *)
Definition int16 (v : Z) : Z := (v + 32768) mod 65536 - 32768.

(** [bytesToInt16]: a slice of [len(data)/2] samples, the sample [i] read
    at [data[i*2:]]. *)
Definition bytesToInt16 (data : list byte) : list Z :=
  map (fun i => int16 (Uint16 (drop (i * 2) data))) (seq 0 (length data / 2)).

(** The loop of [writeChannel]: for each sample the two places of its frame
    in the interleaved buffer are written, the sample on its channel and
    zero on the other. *)
Definition write_frame (samples : list Z) (leftCh : bool) (interleavedData : list Z)
    (i : nat) : list Z :=
  let sample := default 0 (samples !! i) in
  if leftCh then <[(i * 2 + 1)%nat := 0]> (<[(i * 2)%nat := sample]> interleavedData)
  else <[(i * 2 + 1)%nat := sample]> (<[(i * 2)%nat := 0]> interleavedData).

(** The buffer [writeChannel] hands to the encoder. *)
Definition interleaved (data : list byte) (leftCh : bool) : list Z :=
  let samples := bytesToInt16 data in
  fold_left (write_frame samples leftCh) (seq 0 (length samples))
            (replicate (length samples * 2) 0).

(** The channels of an interleaved buffer. *)
Fixpoint channels (buf : list Z) : list Z * list Z :=
  match buf with
  | l :: r :: rest => let '(ls, rs) := channels rest in (l :: ls, r :: rs)
  | _ => ([], [])
  end.

(** ** main.go: reading the audio file *)

(** A file, opened: its bytes, and what [Seek] and [io.ReadAll] return
    beside them. *)
Record file := {
  content : list byte;
  seek_error : option error;
  read_error : option error
}.

(** [readWAVData], given what [os.Open] returned: the bytes after the first
    44.  A seek past the end of a file is no error, and nothing is read
    there. *)
Definition readWAVData (opened : error + file) : error + list byte :=
  match opened with
  | inl err => inl err
  | inr f =>
      match seek_error f with
      | Some err => inl err
      | None =>
          match read_error f with
          | Some err => inl err
          | None => inr (drop 44 (content f))
          end
      end
  end.

(** The chunk of silence that ends the turn, and the frames [sendAudioFile]
    sends when nothing fails: the chunks of the audio, then ten of
    silence. *)
Definition silenceChunk : list byte := repeat x00 (Z.to_nat CHUNK_SIZE).

Definition audio_chunks (audioData : list byte) : list (list byte) :=
  chunks_from (S (length audioData)) audioData 0 ++ replicate 10 silenceChunk.

Definition audio_frames (streamID : string) (audioData : list byte) : list data :=
  map (fun c => Valid (json_of_Message (media_input streamID c))) (audio_chunks audioData).

(** An environment whose network takes every frame; the recorder is as it
    may be. *)
Definition network_up (env : environment) : Prop :=
  forall hist d, network env hist d = None.

(** A recorder that takes nothing. *)
Definition full_disk_env : environment :=
  {| network := fun _ _ => None; disk := fun _ _ _ => Some "no space left on device" |}.

(** A file of a header and nothing else. *)
Definition header_only : file :=
  {| content := repeat x00 44; seek_error := None; read_error := None |}.

(** A chunk in its media-input frame. *)
Definition frame_of (sid : string) (c : list byte) : data :=
  Valid (json_of_Message (media_input sid c)).

(** ** main.go: what the controller hears *)

(** The audio a round brings: the payload of a media-output message,
    decoded, where it decodes and is not empty. *)
Definition agent_audio (c : select_case) : option (list byte) :=
  match c with
  | MessagesRecv (Some (MediaOutput m)) =>
      match base64.DecodeString (Media.Payload (MediaOutputMessage.Media m)) with
      | inl _ => None
      | inr audioData => if 0 <? len audioData then Some audioData else None
      end
  | _ => None
  end.

(** A round that brings a message and no audio. *)
Definition inaudible (c : select_case) : bool :=
  match c with
  | MessagesRecv (Some _) =>
      match agent_audio c with Some _ => false | None => true end
  | _ => false
  end.

(** The lines logged for such messages. *)
Definition remark (e : effect) : bool :=
  match e with
  | Log LogDecodeError | Log LogClear => true
  | _ => false
  end.

(** The state in which the controller listens to the answer: greeting
    complete, question sent, agent speaking. *)
Definition hearing_response (st : turn) : Prop :=
  greetingComplete st = true /\ questionSent st = true /\ agentSpeaking st = true.

(** A frame of agent audio that is no base64, and one with no audio in it. *)
Definition garbled_media : Message :=
  MediaOutput (MediaOutputMessage.mk MessageTypeMediaOutput "stream" (Media.mk "?")).


(** A whole conversation: the greeting, the question marked sent, the
    answer, and the silence after it. *)
Definition conversation_script : list (Z * select_case) :=
  greeting_script
  ++ [(4000 * Millisecond, QuestionComplete);
      (5000 * Millisecond, MessagesRecv (Some agent_media));
      (5100 * Millisecond, MessagesRecv (Some clear_message));
      (7000 * Millisecond, TimeAfter);
      (7100 * Millisecond, TimeAfter)].
(** *** The encoding can be undone *)

Section base64_facts.
Import base64.

Lemma Z_of_byte_land (b : byte) : Z_of_byte b = Z.land (Z_of_byte b) (Z.ones 8).
Proof.
  unfold Z_of_byte. rewrite Z.land_ones by lia.
  pose proof (Byte.to_N_bounded b). rewrite Z.mod_small; lia.
Qed.

Lemma byte_of_Z_of_byte (b : byte) : byte_of_Z (Z_of_byte b) = b.
Proof.
  unfold byte_of_Z. rewrite <- Z_of_byte_land. unfold Z_of_byte.
  rewrite N2Z.id, Byte.of_to_N. reflexivity.
Qed.

Lemma sextet_range (v : Z) : 0 <= Z.land v (Z.ones 6) < 64.
Proof. rewrite Z.land_ones by lia. apply Z.mod_pos_bound. lia. Qed.

Lemma alphabet_table : forallb alphabet_ok (seq 0 64) = true.
Proof. vm_compute. reflexivity. Qed.

Lemma alphabet_at (v : Z) :
  0 <= v < 64 ->
  decodeMap (encode_char v) = Some v
  /\ Ascii.eqb (encode_char v) padChar = false
  /\ is_newline (encode_char v) = false.
Proof.
  intros Hv. pose proof alphabet_table as Ht.
  rewrite forallb_forall in Ht.
  specialize (Ht (Z.to_nat v)).
  assert (Hin : In (Z.to_nat v) (seq 0 64)) by (apply in_seq; lia).
  specialize (Ht Hin). unfold alphabet_ok in Ht.
  rewrite Z2Nat.id in Ht by lia.
  apply andb_prop in Ht as [Ht Hn]. apply andb_prop in Ht as [Hd Hp].
  apply bool_decide_eq_true in Hd.
  apply negb_true_iff in Hp, Hn. auto.
Qed.

Lemma decodeMap_sextet (val s : Z) :
  decodeMap (sextet val s) = Some (Z.land (Z.shiftr val s) (Z.ones 6)).
Proof. apply alphabet_at, sextet_range. Qed.

Lemma sextet_not_pad (val s : Z) : Ascii.eqb (sextet val s) padChar = false.
Proof. apply alphabet_at, sextet_range. Qed.

Lemma sextet_not_newline (val s : Z) : is_newline (sextet val s) = false.
Proof. apply alphabet_at, sextet_range. Qed.

Lemma decodeMap_pad : decodeMap padChar = None.
Proof. reflexivity. Qed.

(** Four sextets put the 24 bits of the value back together; with
    padding only the upper ones. *)
Lemma quantum_sextets4 (val : Z) :
  quantum (Z.land (Z.shiftr val 18) (Z.ones 6)) (Z.land (Z.shiftr val 12) (Z.ones 6))
          (Z.land (Z.shiftr val 6) (Z.ones 6)) (Z.land (Z.shiftr val 0) (Z.ones 6))
  = Z.land val (Z.ones 24).
Proof. unfold quantum. Z.bitblast. Qed.

Lemma quantum_sextets3 (val : Z) :
  quantum (Z.land (Z.shiftr val 18) (Z.ones 6)) (Z.land (Z.shiftr val 12) (Z.ones 6))
          (Z.land (Z.shiftr val 6) (Z.ones 6)) 0
  = Z.shiftl (Z.land (Z.shiftr val 6) (Z.ones 18)) 6.
Proof. unfold quantum. Z.bitblast. Qed.

Lemma quantum_sextets2 (val : Z) :
  quantum (Z.land (Z.shiftr val 18) (Z.ones 6)) (Z.land (Z.shiftr val 12) (Z.ones 6)) 0 0
  = Z.shiftl (Z.land (Z.shiftr val 12) (Z.ones 12)) 12.
Proof. unfold quantum. Z.bitblast. Qed.

Lemma byte_of_Z_eq (v : Z) (b : byte) :
  Z.land v (Z.ones 8) = Z_of_byte b -> byte_of_Z v = b.
Proof.
  intros H. rewrite <- (byte_of_Z_of_byte b). unfold byte_of_Z.
  rewrite <- Z_of_byte_land, H. reflexivity.
Qed.

Ltac bytes_as_Z :=
  repeat match goal with
         | |- context [Z_of_byte ?b] =>
             let z := fresh "z" in
             let Hz := fresh "Hz" in
             pose proof (Z_of_byte_land b) as Hz;
             set (z := Z_of_byte b) in *; clearbody z; rewrite Hz; clear Hz
         end.

Lemma full_hi (a b c : byte) :
  Z.land (Z.shiftr (Z.land (Z.lor (Z.lor (Z.shiftl (Z_of_byte a) 16)
      (Z.shiftl (Z_of_byte b) 8)) (Z_of_byte c)) (Z.ones 24)) 16) (Z.ones 8) = Z_of_byte a.
Proof. bytes_as_Z. Z.bitblast. Qed.

Lemma full_mid (a b c : byte) :
  Z.land (Z.shiftr (Z.land (Z.lor (Z.lor (Z.shiftl (Z_of_byte a) 16)
      (Z.shiftl (Z_of_byte b) 8)) (Z_of_byte c)) (Z.ones 24)) 8) (Z.ones 8) = Z_of_byte b.
Proof. bytes_as_Z. Z.bitblast. Qed.

Lemma full_lo (a b c : byte) :
  Z.land (Z.land (Z.lor (Z.lor (Z.shiftl (Z_of_byte a) 16)
      (Z.shiftl (Z_of_byte b) 8)) (Z_of_byte c)) (Z.ones 24)) (Z.ones 8) = Z_of_byte c.
Proof. bytes_as_Z. Z.bitblast. Qed.

Lemma two_hi (a b : byte) :
  Z.land (Z.shiftr (Z.shiftl (Z.land (Z.shiftr
      (Z.lor (Z.shiftl (Z_of_byte a) 16) (Z.shiftl (Z_of_byte b) 8)) 6) (Z.ones 18)) 6) 16)
    (Z.ones 8) = Z_of_byte a.
Proof. bytes_as_Z. Z.bitblast. Qed.

Lemma two_mid (a b : byte) :
  Z.land (Z.shiftr (Z.shiftl (Z.land (Z.shiftr
      (Z.lor (Z.shiftl (Z_of_byte a) 16) (Z.shiftl (Z_of_byte b) 8)) 6) (Z.ones 18)) 6) 8)
    (Z.ones 8) = Z_of_byte b.
Proof. bytes_as_Z. Z.bitblast. Qed.

Lemma one_hi (a : byte) :
  Z.land (Z.shiftr (Z.shiftl (Z.land (Z.shiftr (Z.shiftl (Z_of_byte a) 16) 12)
      (Z.ones 12)) 12) 16) (Z.ones 8) = Z_of_byte a.
Proof. bytes_as_Z. Z.bitblast. Qed.

Lemma list_ind3 {A : Type} (P : list A -> Prop) :
  P [] -> (forall a, P [a]) -> (forall a b, P [a; b]) ->
  (forall a b c rest, P rest -> P (a :: b :: c :: rest)) ->
  forall l, P l.
Proof.
  intros H0 H1 H2 H3 l.
  assert (H : P l /\ (forall a, P (a :: l)) /\ (forall a b, P (a :: b :: l))).
  { induction l as [|x l (IH0 & IH1 & IH2)]; [auto|].
    split; [apply IH1|]. split; [intros; apply IH2|].
    intros a b. apply H3, IH0. }
  apply H.
Qed.

Lemma decode_encode (src : list byte) : decode (encode src) = Some src.
Proof.
  induction src as [|a|a b|a b c rest IH] using list_ind3.
  - reflexivity.
  - cbn [encode decode]. rewrite !decodeMap_sextet, decodeMap_pad.
    rewrite Ascii.eqb_refl, bool_decide_eq_true_2 by reflexivity.
    cbn [andb]. cbv zeta. rewrite quantum_sextets2.
    rewrite (byte_of_Z_eq _ a (one_hi a)). reflexivity.
  - cbn [encode decode]. rewrite !decodeMap_sextet, decodeMap_pad.
    rewrite Ascii.eqb_refl, bool_decide_eq_true_2 by reflexivity.
    cbn [andb]. cbv zeta. rewrite quantum_sextets3.
    rewrite (byte_of_Z_eq _ a (two_hi a b)), (byte_of_Z_eq _ b (two_mid a b)).
    reflexivity.
  - cbn [encode decode]. rewrite !decodeMap_sextet, IH.
    cbv zeta. rewrite quantum_sextets4.
    rewrite (byte_of_Z_eq _ a (full_hi a b c)), (byte_of_Z_eq _ b (full_mid a b c)),
      (byte_of_Z_eq _ c (full_lo a b c)).
    reflexivity.
Qed.

Lemma encode_no_newline (src : list byte) :
  Forall (fun c => is_newline c = false) (encode src).
Proof.
  induction src as [|a|a b|a b c rest IH] using list_ind3; cbn [encode];
    repeat constructor; auto using sextet_not_newline.
Qed.

(** Every byte string comes back from its base64 text. *)
Lemma DecodeString_EncodeToString (src : list byte) :
  DecodeString (EncodeToString src) = inr src.
Proof.
  unfold DecodeString, EncodeToString.
  rewrite list_ascii_of_string_of_list_ascii.
  assert (Hf : filter (fun c => is_newline c = false) (encode src) = encode src).
  { pose proof (encode_no_newline src) as Hn.
    induction Hn as [|c l Hc Hl IHl]; [reflexivity|].
    rewrite filter_cons_True by exact Hc. f_equal. exact IHl. }
  rewrite Hf, decode_encode. reflexivity.
Qed.

End base64_facts.


(** ** The codec *)

Section value_facts.

Lemma value_size_elem (elems : list value) (e : value) :
  e ∈ elems -> (value_size e < value_size (VSlice elems))%nat.
Proof.
  cbn [value_size]. induction 1 as [e l|e e' l _ IH]; cbn [foldr]; lia.
Qed.

Lemma value_size_lookup (m : gmap string value) (k : string) (e : value) :
  m !! k = Some e -> (value_size e < value_size (VMap m))%nat.
Proof.
  cbn [value_size]. revert k e.
  induction m as [|i x m Hi IH] using map_ind; intros k e Hk.
  - rewrite lookup_empty in Hk. discriminate.
  - rewrite map_fold_insert_L; [|intros; lia|exact Hi].
    destruct (decide (i = k)) as [->|Hne].
    + rewrite lookup_insert_eq in Hk. injection Hk as ->. lia.
    + rewrite lookup_insert_ne in Hk by exact Hne. specialize (IH k e Hk). lia.
Qed.

(** Induction on a value, with the property at hand for the elements of a
    slice and of a map. *)
Lemma value_ind' (P : value -> Prop) :
  P VNil -> (forall b, P (VBool b)) -> (forall n, P (VFloat64 n)) ->
  (forall s, P (VString s)) ->
  (forall elems, Forall P elems -> P (VSlice elems)) ->
  (forall m, map_Forall (fun _ e => P e) m -> P (VMap m)) ->
  forall v, P v.
Proof.
  intros Hnil Hbool Hnum Hstr Hslice Hmap v.
  remember (value_size v) as n eqn:Hn. revert v Hn.
  induction (lt_wf n) as [n _ IH]. intros v ->.
  destruct v as [| | | |elems|m]; auto.
  - apply Hslice, Forall_forall. intros e He.
    apply (IH _ (value_size_elem _ _ He)). reflexivity.
  - apply Hmap. intros k e Hk.
    apply (IH _ (value_size_lookup _ _ _ Hk)). reflexivity.
Qed.

Lemma fold_left_insert_list_to_map {V : Type} (l : list (string * V))
    (m : gmap string V) :
  fold_left (fun m kv => <[kv.1 := kv.2]> m) l m = list_to_map (reverse l) ∪ m.
Proof.
  revert m. induction l as [|[k v] l IH]; intros m; cbn [fold_left].
  - cbn. rewrite (left_id_L ∅ (∪)). reflexivity.
  - rewrite IH, reverse_cons, list_to_map_app. cbn.
    rewrite insert_empty, <- (assoc_L (∪)), <- insert_union_singleton_l. reflexivity.
Qed.

(** What [json.Marshal] writes for a value, [json.Unmarshal] reads as that
    value. *)
Lemma value_of_json_of (v : value) : value_of (json_of v) = v.
Proof.
  induction v as [| | | |elems IH|m IH] using value_ind'; cbn [json_of value_of]; auto.
  - f_equal. rewrite map_map. induction IH as [|e l He _ IHl]; cbn; [reflexivity|].
    rewrite He. f_equal. exact IHl.
  - f_equal. rewrite fold_left_insert_list_to_map, (right_id_L ∅ (∪)).
    set (g := fun kv : string * json => (kv.1, value_of kv.2)).
    assert (Hperm : reverse (map g (merge_sort key_le (map_to_list (json_of <$> m))))
                      ≡ₚ map_to_list m).
    { rewrite reverse_Permutation, merge_sort_Permutation.
      rewrite map_to_list_fmap. rewrite <- list_fmap_compose.
      assert (Hid : forall kv, kv ∈ map_to_list m -> (g ∘ prod_map id json_of) kv = kv).
      { intros [k e] Hke. apply elem_of_map_to_list in Hke.
        unfold g. cbn. f_equal. exact (IH k e Hke). }
      clear IH. induction (map_to_list m) as [|kv l IHl]; [reflexivity|].
      cbn [fmap list_fmap]. rewrite Hid by left.
      apply Permutation_skip, IHl. intros kv' Hkv'. apply Hid. right. exact Hkv'. }
    assert (Hnd : NoDup (reverse (map g (merge_sort key_le
                                   (map_to_list (json_of <$> m))))).*1).
    { rewrite Hperm. apply NoDup_fst_map_to_list. }
    rewrite (list_to_map_proper _ _ Hnd Hperm).
    apply list_to_map_to_list.
Qed.

Lemma fold_left_insert_map {A V : Type} (f : A -> string * V) (l : list A)
    (m : gmap string V) :
  fold_left (fun m a => <[(f a).1 := (f a).2]> m) l m
  = fold_left (fun m kv => <[kv.1 := kv.2]> m) (map f l) m.
Proof. revert m. induction l as [|a l IH]; intros m; cbn; [reflexivity|apply IH]. Qed.

Lemma into_Metadata_json_of (md : Metadata) :
  into_Metadata None (json_of_Metadata md) = inr md.
Proof.
  destruct md as [m|]; [|reflexivity].
  pose proof (value_of_json_of (VMap m)) as H. cbn [json_of value_of] in H.
  injection H as H. cbn [json_of_Metadata json_of into_Metadata default].
  do 2 f_equal. rewrite <- H at 2.
  apply (fold_left_insert_map (fun kv : string * json => (kv.1, value_of kv.2))).
Qed.

End value_facts.

Section codec_facts.

Lemma discriminator_inr (d : data) (event : MessageType) :
  discriminator d = inr event ->
  json_Unmarshal into_genericMsg d genericMsg.zero = inr (genericMsg.mk event).
Proof.
  unfold discriminator.
  destruct (json_Unmarshal into_genericMsg d genericMsg.zero) as [e|[ev]]; cbn;
    [discriminate|]. intros H. injection H as ->. reflexivity.
Qed.

Lemma not_dispatched_eqb (event : MessageType) :
  event ∉ dispatched ->
  String.eqb event MessageTypeAck = false
  /\ String.eqb event MessageTypeMediaOutput = false
  /\ String.eqb event MessageTypeClear = false
  /\ String.eqb event MessageTypeDTMF = false
  /\ String.eqb event MessageTypeCustom = false.
Proof.
  intros Hn. unfold dispatched in Hn.
  repeat split; apply String.eqb_neq; intros ->; apply Hn;
    apply list_elem_of_In; cbn; tauto.
Qed.

(** A frame whose discriminator is none of the five the [switch] names is
    turned down as of unknown type. *)
Lemma UnmarshalMessage_not_dispatched (d : data) (event : MessageType) :
  discriminator d = inr event -> event ∉ dispatched ->
  UnmarshalMessage d = inl ErrUnknownMessageType.
Proof.
  intros Hd Hn. apply discriminator_inr in Hd.
  apply not_dispatched_eqb in Hn as (H1 & H2 & H3 & H4 & H5).
  unfold UnmarshalMessage. rewrite Hd. cbn [genericMsg.Event].
  rewrite H1, H2, H3, H4, H5. reflexivity.
Qed.

Lemma decode_encode_dispatched (msg : Message) :
  Message_Event msg = Message_Type msg ->
  Message_Type msg ∈ dispatched ->
  decode_encode_Message msg = inr msg.
Proof.
  intros Htag Hin. unfold decode_encode_Message, json_Marshal. cbn [mbind error_bind].
  destruct msg as [m|m|m|m|m|m|m]; cbn in Htag, Hin.
  - exfalso. apply list_elem_of_In in Hin. cbn in Hin. intuition discriminate.
  - destruct m as [ev sid [fmt]]. cbn in Htag. subst ev. reflexivity.
  - exfalso. apply list_elem_of_In in Hin. cbn in Hin. intuition discriminate.
  - destruct m as [ev sid dtmf]. cbn in Htag. subst ev. reflexivity.
  - destruct m as [ev sid md]. cbn in Htag. subst ev.
    unfold UnmarshalMessage. cbv -[into_Metadata json_of_Metadata].
    change (@None (gmap string value)) with (None : Metadata).
    rewrite into_Metadata_json_of. reflexivity.
  - destruct m as [ev sid [p]]. cbn in Htag. subst ev. reflexivity.
  - destruct m as [ev sid]. cbn in Htag. subst ev. reflexivity.
Qed.


















Lemma dispatched_cases (event : MessageType) :
  event ∈ dispatched ->
  event = MessageTypeAck \/ event = MessageTypeMediaOutput \/ event = MessageTypeClear
  \/ event = MessageTypeDTMF \/ event = MessageTypeCustom.
Proof.
  intros H. apply list_elem_of_In in H. cbn in H.
  destruct H as [<-|[<-|[<-|[<-|[<-|[]]]]]]; tauto.
Qed.



End codec_facts.

(** ** The audio chunker *)

Section chunker_facts.

Context (env : environment).

Lemma WriteLeft_reliable (r : DualChannelRecorder) (buf : list byte) :
  reliable env ->
  WriteLeft env r buf
  = (None, {| left_channel := left_channel r ++ [buf];
              right_channel := right_channel r |}).
Proof. intros [_ Hd]. unfold WriteLeft. rewrite Hd. reflexivity. Qed.

Lemma session_Send_reliable (s : session) (m : Message) :
  reliable env -> websocket.closed (conn s) = None ->
  session_Send env s m
  = (None, {| streamID := streamID s;
              conn := websocket.mk (websocket.written (conn s) ++ [Valid (json_of_Message m)])
                                   None;
              cancelled := cancelled s; workers := workers s |}).
Proof.
  intros [Hn _] Hopen. unfold session_Send, json_Marshal, websocket.Write.
  rewrite Hopen, Hn. reflexivity.
Qed.

(** With nothing failing, the first loop ends without an error, having
    handed its chunks, in order, to the left channel and, each wrapped in a
    media-input frame, to the connection. *)
Lemma send_chunks_reliable (audioData : list byte) (fuel : nat) :
  reliable env ->
  forall (offset : Z) (w : world),
    websocket.closed (conn (sess w)) = None ->
    0 <= offset ->
    (1 <= fuel)%nat ->
    len audioData - offset <= (Z.of_nat fuel - 1) * CHUNK_SIZE ->
    exists w',
      send_chunks env fuel audioData offset w = Some (None, w')
      /\ left_channel (recorder w')
         = left_channel (recorder w) ++ chunks_from fuel audioData offset
      /\ right_channel (recorder w') = right_channel (recorder w)
      /\ websocket.written (conn (sess w'))
         = websocket.written (conn (sess w))
           ++ map (fun c => Valid (json_of_Message (media_input (streamID (sess w)) c)))
                  (chunks_from fuel audioData offset)
      /\ websocket.closed (conn (sess w')) = None
      /\ streamID (sess w') = streamID (sess w).
Proof.
  intros Hrel. induction fuel as [|fuel IH]; intros offset w Hopen Hoff Hone Hfuel.
  - exfalso. lia.
  - cbn [send_chunks chunks_from].
    destruct (offset <? len audioData) eqn:Hlt.
    + rewrite WriteLeft_reliable by exact Hrel.
      rewrite session_Send_reliable by assumption.
      apply Z.ltb_lt in Hlt.
      edestruct (IH (offset + CHUNK_SIZE)) as (w' & Hrun & Hl & Hr & Hw & Hc & Hs);
        [| |unfold CHUNK_SIZE in *; lia|unfold CHUNK_SIZE in *; lia|].
      3:{ exists w'. split; [exact Hrun|]. cbn in Hl, Hr, Hw, Hc, Hs.
          rewrite Hl, Hr, Hw, Hc, Hs. cbn [map].
          rewrite <- !app_assoc. cbn [app]. unfold session_StreamID. cbn.
          repeat split; reflexivity. }
      * reflexivity.
      * unfold CHUNK_SIZE. lia.
    + exists w. rewrite !app_nil_r. repeat split; try reflexivity. exact Hopen.
Qed.

Lemma slice_length {A : Type} (l : list A) (lo hi : Z) :
  0 <= lo <= hi -> hi <= len l -> len (slice l lo hi) = hi - lo.
Proof.
  intros Hlo Hhi. unfold len, slice in *. rewrite length_take, length_drop. lia.
Qed.

(** The chunks, put together again, are the buffer from [offset] on. *)
Lemma concat_chunks_from (audioData : list byte) (fuel : nat) :
  forall offset : Z,
    0 <= offset ->
    (1 <= fuel)%nat ->
    len audioData - offset <= (Z.of_nat fuel - 1) * CHUNK_SIZE ->
    concat (chunks_from fuel audioData offset) = drop (Z.to_nat offset) audioData.
Proof.
  induction fuel as [|fuel IH]; intros offset Hoff Hone Hfuel.
  - exfalso. lia.
  - cbn [chunks_from]. destruct (offset <? len audioData) eqn:Hlt.
    + apply Z.ltb_lt in Hlt. cbn [concat].
      rewrite IH by (unfold CHUNK_SIZE in *; lia).
      unfold slice.
      destruct (Z.le_ge_cases (offset + CHUNK_SIZE) (len audioData)) as [Hle|Hge].
      * rewrite Z.min_l by exact Hle.
        replace (Z.to_nat (offset + CHUNK_SIZE - offset)) with (Z.to_nat CHUNK_SIZE) by lia.
        replace (Z.to_nat (offset + CHUNK_SIZE))
          with (Z.to_nat offset + Z.to_nat CHUNK_SIZE)%nat by (unfold CHUNK_SIZE; lia).
        rewrite <- drop_drop. apply take_drop.
      * rewrite Z.min_r by exact Hge.
        rewrite (drop_ge audioData (Z.to_nat (offset + CHUNK_SIZE)))
          by (unfold len, CHUNK_SIZE in *; lia).
        rewrite app_nil_r. apply take_ge. rewrite length_drop. unfold len in *. lia.
    + apply Z.ltb_ge in Hlt. cbn. symmetry. apply drop_ge. unfold len in *. lia.
Qed.

(** The twelve chunks of a buffer of 100,000 bytes. *)
Lemma chunks_from_100000 (audioData : list byte) (fuel : nat) :
  len audioData = 100000 -> (13 <= fuel)%nat ->
  chunks_from fuel audioData 0
  = map (fun k => slice audioData (k * 8820) ((k + 1) * 8820)) (seqZ 0 11)
    ++ [slice audioData 97020 100000].
Proof.
  intros Hlen Hfuel.
  do 13 (destruct fuel as [|fuel]; [lia|]).
  cbn [chunks_from]. rewrite Hlen. unfold CHUNK_SIZE. cbn -[slice chunks_from].
  destruct fuel; cbn [chunks_from]; [reflexivity|].
  rewrite Hlen. reflexivity.
Qed.

Lemma lens_100000 (audioData : list byte) :
  len audioData = 100000 ->
  map len (map (fun k => slice audioData (k * 8820) ((k + 1) * 8820)) (seqZ 0 11)
           ++ [slice audioData 97020 100000])
  = replicate 11 8820 ++ [2980].
Proof.
  intros Hlen. rewrite map_app, map_map.
  change (seqZ 0 11) with [0; 1; 2; 3; 4; 5; 6; 7; 8; 9; 10].
  cbn [map app replicate]. rewrite !slice_length by lia. reflexivity.
Qed.

(** Whatever fails, the fuel [sendAudioFile] gives the first loop is
    enough. *)
Lemma send_chunks_enough_fuel (audioData : list byte) (fuel : nat) :
  forall (offset : Z) (w : world),
    0 <= offset ->
    (1 <= fuel)%nat ->
    len audioData - offset <= (Z.of_nat fuel - 1) * CHUNK_SIZE ->
    send_chunks env fuel audioData offset w <> None.
Proof.
  induction fuel as [|fuel IH]; intros offset w Hoff Hone Hfuel; [lia|].
  cbn [send_chunks]. destruct (offset <? len audioData) eqn:Hlt; [|discriminate].
  apply Z.ltb_lt in Hlt.
  destruct (WriteLeft env (recorder w) _) as [[err|] r]; [discriminate|].
  destruct (session_Send env _ _) as [[err|] s]; [discriminate|].
  apply IH; unfold CHUNK_SIZE in *; lia.
Qed.

Lemma sendAudioFile_returns (wav : error + list byte) (w : world) :
  sendAudioFile env wav w <> None.
Proof.
  unfold sendAudioFile. destruct wav as [err|audioData]; [discriminate|].
  pose proof (send_chunks_enough_fuel audioData (S (length audioData)) 0 w) as H.
  destruct (send_chunks env (S (length audioData)) audioData 0 w) as [[[err|] w']|].
  - discriminate.
  - discriminate.
  - exfalso. apply H; [lia|lia| |reflexivity]. unfold len, CHUNK_SIZE. lia.
Qed.

End chunker_facts.

(** ** The turn-taking controller *)

Section controller_facts.

Context (env : environment).

Lemma closings_app (e1 e2 : list (Z * effect)) :
  closings (e1 ++ e2) = closings e1 ++ closings e2.
Proof. unfold closings. apply omap_app. Qed.

Lemma logged_app (line : log_line) (e1 e2 : list (Z * effect)) :
  logged line (e1 ++ e2) = logged line e1 ++ logged line e2.
Proof. unfold logged. apply omap_app. Qed.

Lemma closings_now (now : Z) (eff : list effect) :
  closings (map (pair now) eff) = map (fun _ => now) (filter (fun e => is_close e = true) eff).
Proof.
  induction eff as [|[l|] eff IH]; [reflexivity| |].
  - rewrite filter_cons_False by (cbn; discriminate). exact IH.
  - rewrite filter_cons_True by reflexivity. cbn [map]. rewrite <- IH. reflexivity.
Qed.

Ltac no_effect :=
  let H := fresh "H" in
  cbn; intros H; apply list_elem_of_In in H; cbn in H; intuition discriminate.

Lemma no_close_filter (eff : list effect) :
  CloseSendQuestion ∉ eff -> filter (fun e => is_close e = true) eff = [].
Proof.
  induction eff as [|[l|] eff IH]; intros Hnin.
  - reflexivity.
  - rewrite filter_cons_False by (cbn; discriminate). apply IH.
    intros H. apply Hnin. right. exact H.
  - exfalso. apply Hnin. left.
Qed.

(** The round in which [sendQuestion] is closed: a round of the timer, with
    the agent marked speaking, the greeting not complete, and more than the
    threshold of silence; it closes the channel once and leaves the greeting
    complete. *)
Lemma listen_step_close (now : Z) (c : select_case) (st : turn)
    (r : DualChannelRecorder) :
  CloseSendQuestion ∈ (listen_step env now c st r).2 ->
  c = TimeAfter /\ agentSpeaking st = true /\ greetingComplete st = false
  /\ silenceThreshold < now - lastAudioTime st
  /\ sendQuestion_closed st = false
  /\ filter (fun e => is_close e = true) (listen_step env now c st r).2
     = [CloseSendQuestion]
  /\ forall st', (listen_step env now c st r).1.1 = Continue st' ->
                 greetingComplete st' = true.
Proof.
  destruct c as [[msg|]|  | |e].
  - (* a message *)
    intros H. exfalso. revert H. cbn [listen_step].
    destruct msg as [m|m|m|m|m|m|m]; cbn [snd]; try no_effect.
    destruct (base64.DecodeString _) as [err|audioData]; [no_effect|].
    destruct (0 <? len audioData); [|no_effect].
    destruct (WriteRight env r audioData) as [[err|] r']; no_effect.
  - intros H. exfalso. revert H. cbn. no_effect.
  - (* the question is sent *)
    intros H. exfalso. revert H. cbn [listen_step].
    destruct (questionComplete_nil st); [no_effect|].
    destruct (negb (questionSent st)); no_effect.
  - (* the timer *)
    destruct st as [gc qs sp lt qn sc].
    cbn -[Z.ltb silenceThreshold responseTimeout].
    destruct (silenceThreshold <? now - lt) eqn:Hlt;
      destruct (responseTimeout <? now - lt) eqn:Hrt;
      destruct sp, gc, sc, qs; cbn; try no_effect.
    all: apply Z.ltb_lt in Hlt; intros _; repeat split; try reflexivity; try exact Hlt;
      intros st' H; try discriminate; injection H as <-; reflexivity.
  - intros H. exfalso. revert H. cbn. no_effect.
Qed.

(** Once the greeting is complete it stays so, and the channel is left
    alone. *)
Lemma listen_step_after_greeting (now : Z) (c : select_case) (st : turn)
    (r : DualChannelRecorder) :
  greetingComplete st = true ->
  (CloseSendQuestion ∉ (listen_step env now c st r).2)
  /\ forall st', (listen_step env now c st r).1.1 = Continue st' ->
                 greetingComplete st' = true.
Proof.
  intros Hgc. split.
  - intros Hin. apply listen_step_close in Hin as (_ & _ & Hn & _). congruence.
  - destruct st as [gc qs sp lt qn sc]. cbn in Hgc. subst gc.
    destruct c as [[msg|]| | |e]; cbn [listen_step fst snd].
    + destruct msg as [m|m|m|m|m|m|m]; cbn [fst];
        try (intros st' E; injection E as <-; reflexivity).
      destruct (base64.DecodeString _) as [err|audioData];
        [intros st' E; injection E as <-; reflexivity|].
      destruct (0 <? len audioData);
        [|intros st' E; injection E as <-; reflexivity].
      destruct (WriteRight env r audioData) as [[err|] r']; cbn [fst];
        intros st' E; [discriminate|injection E as <-; reflexivity].
    + intros st' E. discriminate.
    + cbn [questionComplete_nil questionSent]. destruct qn; [intros st' E; discriminate|].
      destruct (negb qs); intros st' E; injection E as <-; reflexivity.
    + cbn -[Z.ltb silenceThreshold responseTimeout].
      rewrite andb_false_r. cbn -[Z.ltb silenceThreshold responseTimeout].
      repeat match goal with
             | |- context [if ?b then _ else _] => destruct b
             end; cbn; intros st' E; try discriminate; injection E as <-; reflexivity.
    + intros st' E. discriminate.
Qed.

(** In a run, [sendQuestion] is closed at most once, and not at all once the
    greeting is complete. *)
Lemma listen_run_closings (sched : list (Z * select_case)) :
  forall (st : turn) (r : DualChannelRecorder),
    (length (closings (listen_run env sched st r).2)
     <= if greetingComplete st then 0 else 1)%nat.
Proof.
  induction sched as [|[now c] rest IH]; intros st r.
  - cbn. destruct (greetingComplete st); lia.
  - cbn [listen_run].
    pose proof (listen_step_close now c st r) as Hclose.
    pose proof (listen_step_after_greeting now c st r) as Hafter.
    destruct (listen_step env now c st r) as [[rd r'] eff]. cbn [fst snd] in *.
    assert (Hcount : (length (closings (map (pair now) eff))
                      <= if greetingComplete st then 0 else 1)%nat).
    { rewrite closings_now, length_map.
      destruct (decide (CloseSendQuestion ∈ eff)) as [Hin|Hnin].
      - destruct (Hclose Hin) as (_ & _ & -> & _ & _ & -> & _). cbn. lia.
      - replace (filter (fun e => is_close e = true) eff) with (@nil effect);
          [cbn; lia|].
        symmetry. apply no_close_filter, Hnin. }
    destruct rd as [st'| | |]; cbn [snd]; try exact Hcount.
    specialize (IH st' r').
    destruct (listen_run env rest st' r') as [[e r''] effs]. cbn [snd] in *.
    rewrite closings_app, length_app.
    destruct (decide (CloseSendQuestion ∈ eff)) as [Hin|Hnin].
    + destruct (Hclose Hin) as (_ & _ & Hgc & _ & _ & _ & Hst').
      rewrite (Hst' st' eq_refl) in IH. rewrite Hgc in *. lia.
    + assert (Hz : length (closings (map (pair now) eff)) = 0%nat).
      { rewrite closings_now, length_map, no_close_filter by exact Hnin. reflexivity. }
      rewrite Hz. cbn.
      destruct (greetingComplete st) eqn:Hgc.
      * destruct (Hafter eq_refl) as [_ Hst']. rewrite (Hst' st' eq_refl) in IH. lia.
      * destruct (greetingComplete st'); lia.
Qed.

(** [sendQuestion] is closed only where the greeting is marked complete. *)
Lemma listen_step_closed_channel (now : Z) (c : select_case) (st : turn)
    (r : DualChannelRecorder) :
  (sendQuestion_closed st = true -> greetingComplete st = true) ->
  (listen_step env now c st r).1.1 <> Panic
  /\ forall st', (listen_step env now c st r).1.1 = Continue st' ->
                 sendQuestion_closed st' = true -> greetingComplete st' = true.
Proof.
  intros Hinv. destruct st as [gc qs sp lt qn sc]. cbn in Hinv.
  destruct c as [[msg|]| | |e]; cbn [listen_step fst snd].
  - destruct msg as [m|m|m|m|m|m|m]; cbn [fst];
      try (split; [discriminate|intros st' E; injection E as <-; exact Hinv]).
    destruct (base64.DecodeString _) as [err|audioData];
      [split; [discriminate|intros st' E; injection E as <-; exact Hinv]|].
    destruct (0 <? len audioData);
      [|split; [discriminate|intros st' E; injection E as <-; exact Hinv]].
    destruct (WriteRight env r audioData) as [[err|] r']; cbn [fst];
      (split; [discriminate|intros st' E]); [discriminate|].
    injection E as <-. exact Hinv.
  - split; [discriminate|intros st' E; discriminate].
  - cbn [questionComplete_nil questionSent]. destruct qn;
      [split; [discriminate|intros st' E; discriminate]|].
    destruct (negb qs); (split; [discriminate|intros st' E; injection E as <-; exact Hinv]).
  - cbn -[Z.ltb silenceThreshold responseTimeout].
    destruct sc; [rewrite (Hinv eq_refl), andb_false_r|]; rewrite ?andb_false_r;
      cbn -[Z.ltb silenceThreshold responseTimeout];
      repeat match goal with
             | |- context [if ?b then _ else _] => destruct b
             end; cbn; (split; [discriminate|intros st' E; try discriminate]);
      injection E as <-; cbn; auto.
  - split; [discriminate|intros st' E; discriminate].
Qed.

(** So no run of [listenForResponses] closes a closed channel. *)
Lemma listen_run_no_panic (sched : list (Z * select_case)) :
  forall (st : turn) (r : DualChannelRecorder),
    (sendQuestion_closed st = true -> greetingComplete st = true) ->
    (listen_run env sched st r).1.1 <> Panicked.
Proof.
  induction sched as [|[now c] rest IH]; intros st r Hinv; [discriminate|].
  cbn [listen_run].
  destruct (listen_step_closed_channel now c st r Hinv) as [Hnp Hkeep].
  destruct (listen_step env now c st r) as [[[st'| | |] r'] eff]; cbn [fst snd] in *;
    try discriminate; [|congruence].
  specialize (IH st' r' (Hkeep st' eq_refl)).
  destruct (listen_run env rest st' r') as [[e r''] effs]. exact IH.
Qed.

Lemma listen_step_reliable (now : Z) (c : select_case) (st : turn)
    (r : DualChannelRecorder) :
  reliable env -> listen_step env now c st r = listen_step quiet_env now c st r.
Proof.
  intros [_ Hd]. destruct c as [[[]|]| | |e]; try reflexivity.
  cbn [listen_step]. unfold WriteRight. cbn [disk quiet_env].
  destruct (base64.DecodeString _) as [err|audioData]; [reflexivity|].
  rewrite Hd. reflexivity.
Qed.

Lemma listen_run_reliable (sched : list (Z * select_case)) :
  reliable env ->
  forall (st : turn) (r : DualChannelRecorder),
    listen_run env sched st r = listen_run quiet_env sched st r.
Proof.
  intros Hrel. induction sched as [|[now c] rest IH]; intros st r; [reflexivity|].
  cbn [listen_run]. rewrite (listen_step_reliable now c st r Hrel).
  destruct (listen_step quiet_env now c st r) as [[[st'| | |] r'] eff]; try reflexivity.
  rewrite IH. reflexivity.
Qed.




End controller_facts.

(** ** The goroutines of a session *)

Section goroutine_facts.
Import goroutines invariants.

Lemma exec_app (s : system) (m1 m2 : list move) :
  exec s (m1 ++ m2) = match exec s m1 with Some s' => exec s' m2 | None => None end.
Proof.
  revert s. induction m1 as [|mv m1 IH]; intros s; cbn; [reflexivity|].
  destruct (step s mv) as [s'|]; [apply IH|reflexivity].
Qed.

(** An invariant of the steps holds in every state a run reaches. *)
Lemma exec_invariant (P : system -> Prop) :
  (forall s mv s', P s -> step s mv = Some s' -> P s') ->
  forall moves s s', P s -> exec s moves = Some s' -> P s'.
Proof.
  intros Hstep moves. induction moves as [|mv moves IH]; intros s s' HP Hrun; cbn in Hrun.
  - injection Hrun as <-. exact HP.
  - destruct (step s mv) as [s1|] eqn:Hs; [|discriminate].
    exact (IH s1 s' (Hstep s mv s1 HP Hs) Hrun).
Qed.

Lemma synchronised_init (conn : websocket.Conn) :
  websocket.closed conn = None -> synchronised (init conn).
Proof.
  intros Hopen. unfold synchronised. cbn. rewrite Hopen.
  intuition discriminate.
Qed.

Ltac step_cases H :=
  repeat match type of H with
         | match ?x with _ => _ end = Some _ => destruct x eqn:?; try discriminate
         | (if ?b then _ else _) = Some _ => destruct b eqn:?; try discriminate
         | (let '(_, _) := ?x in _) = Some _ => destruct x eqn:?
         end;
  injection H as <-.

Lemma synchronised_step (s : system) (mv : move) (s' : system) :
  synchronised s -> step s mv = Some s' -> synchronised s'.
Proof.
  unfold synchronised.
  destruct s as [cd w mb so r p c fr pu re]. cbn.
  intros (Hwg & Hrd & Hpg & Hcl & Hcw & Hso) Hstep.
  destruct mv; cbn in Hstep; step_cases Hstep; cbn in *.
  all: try (destruct p, c; cbn in *; intuition (try lia; try congruence); fail).
  all: try (destruct r, c; cbn in *; intuition (try lia; try congruence); fail).
  all: try (destruct r, p; cbn in *; intuition (try lia; try congruence); fail).
  - destruct cd; cbn; intuition (try lia; try congruence).
  - match goal with H : websocket.Close _ _ = _ |- _ =>
      unfold websocket.Close in H; rewrite Hso in H; injection H as <- <- end.
    cbn. intuition (try lia; try congruence).
Qed.

Lemma ordered_init (conn : websocket.Conn) : ordered (init conn).
Proof.
  unfold ordered, capacity. cbn. repeat split; [|lia]. exists []. split; reflexivity.
Qed.

Lemma decoded_snoc (fs : list data) (d : data) :
  decoded (fs ++ [d])
  = decoded fs ++ match UnmarshalMessage d with inr m => [m] | inl _ => [] end.
Proof.
  unfold decoded. rewrite omap_app. cbn. destruct (UnmarshalMessage d); reflexivity.
Qed.

Lemma ordered_step (s : system) (mv : move) (s' : system) :
  ordered s -> step s mv = Some s' -> ordered s'.
Proof.
  unfold ordered.
  destruct s as [cd w mb so r p c fr pu re]. cbn -[decoded].
  intros ((held & Hdec & Hheld) & Hfifo & Hcap) Hstep.
  destruct mv; cbn -[decoded] in Hstep; step_cases Hstep; cbn -[decoded] in *.
  all: try (split; [exists held; split; [exact Hdec|]|split; assumption];
            try assumption;
            subst; cbn; try destruct cd; cbn; try reflexivity; try lia; fail).
  - (* a frame that is not decoded *)
    split; [|split; assumption]. exists []. split; [|reflexivity].
    match goal with H : UnmarshalMessage _ = _ |- _ => rewrite decoded_snoc, H end.
    subst held. rewrite Hdec, !app_nil_r. reflexivity.
  - (* a frame that is decoded *)
    split; [|split; assumption]. eexists. split; [|reflexivity].
    match goal with H : UnmarshalMessage _ = _ |- _ => rewrite decoded_snoc, H end.
    subst held. rewrite Hdec, !app_nil_r. reflexivity.
  - (* the message goes to the mailbox *)
    subst held. split; [|split].
    + exists []. rewrite app_nil_r. split; [exact Hdec|reflexivity].
    + rewrite Hfifo, app_assoc. reflexivity.
    + rewrite length_app. cbn. unfold capacity in *. lia.
  - (* a message leaves the mailbox *)
    split; [exists held; split; [exact Hdec|exact Hheld]|]. split.
    + rewrite Hfifo, <- app_assoc. reflexivity.
    + cbn in Hcap. lia.
Qed.

(** Every state a session reaches from [newSession] on an open connection
    is synchronised and ordered. *)
Lemma reachable_invariants (conn : websocket.Conn) (moves : list move) (s : system) :
  websocket.closed conn = None ->
  exec (init conn) moves = Some s ->
  synchronised s /\ ordered s.
Proof.
  intros Hopen Hrun. split.
  - exact (exec_invariant synchronised synchronised_step moves _ _
             (synchronised_init conn Hopen) Hrun).
  - exact (exec_invariant ordered ordered_step moves _ _ (ordered_init conn) Hrun).
Qed.

(** Once [read] has left its loop it reads and sends nothing more. *)
Lemma reader_left_step (s : system) (mv : move) (s' : system) :
  reader_left (rd s) = true -> step s mv = Some s' ->
  reader_left (rd s') = true /\ frames s' = frames s /\ pushed s' = pushed s.
Proof.
  destruct s as [cd w mb so r p c fr pu re]. cbn.
  intros Hleft Hstep.
  destruct mv; cbn in Hstep; step_cases Hstep; cbn in *; subst;
    try discriminate; auto.
Qed.

Lemma reader_left_exec (moves : list move) :
  forall s s', reader_left (rd s) = true -> exec s moves = Some s' ->
  reader_left (rd s') = true /\ frames s' = frames s /\ pushed s' = pushed s.
Proof.
  induction moves as [|mv moves IH]; intros s s' Hleft Hrun; cbn in Hrun.
  - injection Hrun as <-. auto.
  - destruct (step s mv) as [s1|] eqn:Hs; [|discriminate].
    destruct (reader_left_step s mv s1 Hleft Hs) as (Hl & Hf & Hp).
    destruct (IH s1 s' Hl Hrun) as (Hl' & Hf' & Hp'). rewrite Hf', Hp'. auto.
Qed.

(** A read error takes [read] out of its loop. *)
Lemma read_error_step (s : system) (err : error) (s' : system) :
  step s (ReaderRead (inl err)) = Some s' ->
  rd s' = RCancel /\ frames s' = frames s /\ pushed s' = pushed s.
Proof.
  destruct s as [cd w mb so r p c fr pu re]. cbn. intros Hstep.
  step_cases Hstep. cbn. auto.
Qed.

(** Where [read] waits to run its deferred [s.cancel()], that move is ready
    and cancels the context. *)
Lemma reader_cancel_ready (s : system) :
  rd s = RCancel ->
  exists s', step s ReaderCancel = Some s' /\ ctx_done s' = true.
Proof.
  destruct s as [cd w mb so r p c fr pu re]. cbn. intros ->.
  eexists. split; reflexivity.
Qed.




End goroutine_facts.

(** * The properties of the specification *)

(** ** The handshake *)

Section handshake_facts.

Context (env : environment).

(** [Send] returns what the connection returns: never the sentinel of a
    closed session. *)
Lemma session_Send_error (s : session) (m : Message) (err : error) :
  (session_Send env s m).1 = Some err -> exists why, err = TransportError why.
Proof.
  unfold session_Send, json_Marshal, websocket.Write.
  destruct (websocket.closed (conn s)); cbn.
  - intros H. injection H as <-. eauto.
  - destruct (network env _ _) as [why|]; cbn; intros H; [|discriminate].
    injection H as <-. eauto.
Qed.

(** When the start message cannot be sent, [NewSession] closes the session
    it made before it returns the error. *)
Lemma NewSession_send_fails (c : Client) (h : handshake) (metadata : Metadata)
    (conn0 : websocket.Conn) (why : string) :
  dial h = inr conn0 -> websocket.closed conn0 = None ->
  network env (websocket.written conn0)
    (Valid (json_of_Message
       (Start (StartMessage.mk MessageTypeStart (uuid h)
                 (StreamConfig.mk (inputFormat c)) metadata)))) = Some why ->
  let res := NewSession env c h metadata in
  returned res = inl (TransportError why)
  /\ exists s, made res = Some s /\ cancelled s = true /\ workers s = 0%nat
               /\ websocket.closed (conn s) = Some websocket.StatusNormalClosure.
Proof.
  intros Hdial Hopen Hnet. unfold NewSession, newSession, session_Send, json_Marshal.
  rewrite Hdial. cbn -[json_of_Message]. unfold websocket.Write. rewrite Hopen, Hnet.
  cbn -[json_of_Message]. unfold session_Close, websocket.Close. cbn.
  rewrite Hopen. cbn. split; [reflexivity|].
  eexists. split; [reflexivity|]. cbn. auto.
Qed.

(** When the start message is sent and the first message is no
    acknowledgment, or the context ends first, [NewSession] returns an error
    and leaves the session as [newSession] made it: not cancelled, both
    goroutines running, the connection open. *)
Lemma NewSession_handshake_fails (c : Client) (h : handshake) (metadata : Metadata)
    (conn0 : websocket.Conn) :
  dial h = inr conn0 -> websocket.closed conn0 = None ->
  network env (websocket.written conn0)
    (Valid (json_of_Message
       (Start (StartMessage.mk MessageTypeStart (uuid h)
                 (StreamConfig.mk (inputFormat c)) metadata)))) = None ->
  match first h with inr (Ack _) => False | _ => True end ->
  let res := NewSession env c h metadata in
  (exists err, returned res = inl err)
  /\ exists s, made res = Some s /\ cancelled s = false /\ workers s = 2%nat
               /\ websocket.closed (conn s) = None.
Proof.
  intros Hdial Hopen Hnet Hfirst. unfold NewSession, newSession, session_Send, json_Marshal.
  rewrite Hdial. cbn -[json_of_Message]. unfold websocket.Write. rewrite Hopen, Hnet.
  cbn -[json_of_Message].
  destruct (first h) as [e|[]]; cbn; try contradiction;
    (split; [eexists; reflexivity|eexists; split; [reflexivity|cbn; auto]]).
Qed.

End handshake_facts.

(** C1, as the code has it.  When the first message after the start message
    is agent audio instead of an acknowledgment, [NewSession] returns the
    error "expected ack message" and does not close the session it made: its
    context is not cancelled, its two goroutines run, its connection is open.
    The same holds when the context ends before any message.  The path on
    which the start message cannot be sent does close the session. *)
Theorem NewSession_failed_handshake_leaves_session_open :
  (let res := NewSession quiet_env example_client media_first None in
   returned res = inl (Errorf "expected ack message, but got media_output" None)
   /\ exists s, made res = Some s /\ cancelled s = false /\ workers s = 2%nat
                /\ websocket.closed (conn s) = None)
  /\ (let res := NewSession quiet_env example_client no_answer None in
      returned res = inl (Errorf "handshake timed out: %w" (Some (CtxError DeadlineExceeded)))
      /\ exists s, made res = Some s /\ cancelled s = false /\ workers s = 2%nat
                   /\ websocket.closed (conn s) = None)
  /\ (let res := NewSession refusing_env example_client media_first None in
      returned res = inl (TransportError "broken pipe")
      /\ exists s, made res = Some s /\ cancelled s = true /\ workers s = 0%nat
                   /\ websocket.closed (conn s) = Some websocket.StatusNormalClosure).
Proof.
  repeat split; try reflexivity; eexists; (split; [reflexivity|cbn; auto]).
Qed.

(** ** Send on a closed session *)

(** C2, as the code has it.  [Send] never returns [ErrSessionClosed],
    whatever the session and the message.  On a session whose [Close] has
    returned it marshals the message and calls [Write] on the connection,
    and the error it returns is the error of that write. *)
Theorem Send_after_Close_writes_to_the_connection :
  (forall env s m, (session_Send env s m).1 <> Some ErrSessionClosed)
  /\ let s := (session_Close example_session).2 in
     cancelled s = true /\ workers s = 0%nat
     /\ websocket.closed (conn s) = Some websocket.StatusNormalClosure
     /\ session_Send quiet_env s clear_message
        = ((websocket.Write quiet_env (conn s) (Valid (json_of_Message clear_message))).1,
           s)
     /\ (session_Send quiet_env s clear_message).1
        = Some (TransportError "use of closed network connection").
Proof.
  split.
  - intros env s m H. destruct (session_Send_error env s m _ H) as [why Hwhy].
    discriminate.
  - repeat split; reflexivity.
Qed.

(** ** The codec *)







(** C10.  A frame whose discriminator is "start" or "media_input" is turned
    down with [ErrUnknownMessageType], as is a frame whose discriminator is
    none of the seven message types. *)
Theorem start_and_media_input_are_unknown (d : data) (event : MessageType) :
  discriminator d = inr event ->
  event = MessageTypeStart \/ event = MessageTypeMediaInput \/ event ∉ message_types ->
  UnmarshalMessage d = inl ErrUnknownMessageType.
Proof.
  intros Hd Hev. apply (UnmarshalMessage_not_dispatched d event Hd).
  intros Hin. apply dispatched_cases in Hin.
  destruct Hev as [->|[->|Hn]].
  - intuition discriminate.
  - intuition discriminate.
  - apply Hn. apply list_elem_of_In. cbn.
    destruct Hin as [->|[->|[->|[->| ->]]]]; tauto.
Qed.

Lemma start_and_media_input_are_unknown_witness :
  discriminator (Valid (json_of_Message start_message)) = inr MessageTypeStart
  /\ UnmarshalMessage (Valid (json_of_Message start_message)) = inl ErrUnknownMessageType.
Proof.
  assert (Hd : discriminator (Valid (json_of_Message start_message))
               = inr MessageTypeStart) by reflexivity.
  split; [exact Hd|].
  exact (start_and_media_input_are_unknown _ MessageTypeStart Hd (or_introl eq_refl)).
Defined.

(** ** The chunker *)

(** The first loop of [sendAudioFile] on a buffer of 100,000 bytes, nothing
    failing. *)
Lemma send_chunks_100000 (env : environment) (audioData : list byte) (w : world) :
  reliable env ->
  websocket.closed (conn (sess w)) = None ->
  len audioData = 100000 ->
  exists w' chunks,
    send_chunks env (S (length audioData)) audioData 0 w = Some (None, w')
    /\ left_channel (recorder w') = left_channel (recorder w) ++ chunks
    /\ websocket.written (conn (sess w'))
       = websocket.written (conn (sess w))
         ++ map (fun c => Valid (json_of_Message (media_input (streamID (sess w)) c)))
                chunks
    /\ map len chunks = replicate 11 8820 ++ [2980]
    /\ concat chunks = audioData
    /\ Forall (fun c => base64.DecodeString (base64.EncodeToString c) = inr c) chunks.
Proof.
  intros Hrel Hopen Hlen.
  assert (Hfuel : len audioData - 0 <= (Z.of_nat (S (length audioData)) - 1) * CHUNK_SIZE)
    by (unfold len, CHUNK_SIZE in *; lia).
  destruct (send_chunks_reliable env audioData (S (length audioData)) Hrel 0 w Hopen)
    as (w' & Hrun & Hl & _ & Hw & _); [lia|lia|exact Hfuel|].
  exists w', (chunks_from (S (length audioData)) audioData 0).
  split; [exact Hrun|]. split; [exact Hl|]. split; [exact Hw|]. split; [|split].
  - rewrite (chunks_from_100000 audioData _ Hlen) by (unfold len in Hlen; lia).
    exact (lens_100000 audioData Hlen).
  - rewrite concat_chunks_from by (lia || exact Hfuel). reflexivity.
  - apply Forall_forall. intros c _. apply DecodeString_EncodeToString.
Qed.

Lemma len_silence_100000 : len silence_100000 = 100000.
Proof. unfold len, silence_100000. rewrite repeat_length. lia. Qed.

Lemma reliable_quiet_env : reliable quiet_env.
Proof. split; reflexivity. Qed.

(** C5, as stated, fails: the last of the twelve chunks of a buffer of
    100,000 bytes has 2,980 bytes, not 1,880. *)
Lemma last_chunk_is_not_1880 :
  ~ exists w' chunks,
      send_chunks quiet_env (S (length silence_100000)) silence_100000 0 example_world
      = Some (None, w')
      /\ left_channel (recorder w') = chunks
      /\ map len chunks = replicate 11 8820 ++ [1880].
Proof.
  intros (w' & chunks & Hrun & Hl & Hlens).
  destruct (send_chunks_100000 quiet_env silence_100000 example_world
              reliable_quiet_env eq_refl len_silence_100000)
    as (w1 & chunks1 & Hrun1 & Hl1 & _ & Hlens1 & _).
  rewrite Hrun in Hrun1. injection Hrun1 as <-.
  cbn [example_world recorder empty_recorder left_channel app] in Hl1.
  rewrite Hl in Hl1. subst chunks1. rewrite Hlens in Hlens1. discriminate.
Qed.

(** C5, amended.  On a buffer of 100,000 bytes the chunking loop of
    [sendAudioFile], with chunk size 8820, makes exactly 12 chunks, 11 of
    8820 bytes and then one of 2,980 bytes; it hands them in that order to
    the recorder and, each in a media-input frame, to the connection; put
    together in that order they are the buffer; and each comes back from
    its base64 text. *)
Theorem chunking_of_100000_bytes (env : environment) (audioData : list byte) (w : world) :
  reliable env ->
  websocket.closed (conn (sess w)) = None ->
  len audioData = 100000 ->
  exists w' chunks,
    send_chunks env (S (length audioData)) audioData 0 w = Some (None, w')
    /\ left_channel (recorder w') = left_channel (recorder w) ++ chunks
    /\ websocket.written (conn (sess w'))
       = websocket.written (conn (sess w))
         ++ map (fun c => Valid (json_of_Message (media_input (streamID (sess w)) c)))
                chunks
    /\ map len chunks = replicate 11 8820 ++ [2980]
    /\ concat chunks = audioData
    /\ Forall (fun c => base64.DecodeString (base64.EncodeToString c) = inr c) chunks.
Proof. exact (send_chunks_100000 env audioData w). Qed.

Lemma chunking_of_100000_bytes_witness :
  reliable quiet_env
  /\ websocket.closed (conn (sess example_world)) = None
  /\ len silence_100000 = 100000
  /\ exists w' chunks,
       send_chunks quiet_env (S (length silence_100000)) silence_100000 0 example_world
       = Some (None, w')
       /\ left_channel (recorder w') = left_channel (recorder example_world) ++ chunks
       /\ websocket.written (conn (sess w'))
          = websocket.written (conn (sess example_world))
            ++ map (fun c => Valid (json_of_Message
                                     (media_input (streamID (sess example_world)) c)))
                   chunks
       /\ map len chunks = replicate 11 8820 ++ [2980]
       /\ concat chunks = silence_100000
       /\ Forall (fun c => base64.DecodeString (base64.EncodeToString c) = inr c) chunks.
Proof.
  split; [exact reliable_quiet_env|]. split; [reflexivity|].
  split; [exact len_silence_100000|].
  exact (chunking_of_100000_bytes quiet_env silence_100000 example_world
           reliable_quiet_env eq_refl len_silence_100000).
Defined.

(** ** The turn-taking controller *)

(** The scripted run, nothing failing: [sendQuestion] is closed once, in the
    timer round at 2.6 s. *)
Lemma greeting_script_run :
  closings (listenForResponses quiet_env 0 greeting_script empty_recorder).2
  = [2600 * Millisecond].
Proof. vm_compute. reflexivity. Qed.

(** C6.  In every run of [listenForResponses] the channel [sendQuestion] is
    closed at most once, and no second close is tried, which would panic; it
    is closed only in a round of the timer in which
    the agent is marked speaking, the greeting is not complete and more than
    the two seconds of the silence threshold have passed since the last
    audio; and in the scripted run, with agent media at 0 and at 0.5 s and
    only the timer after that, it is closed exactly once, at 2.6 s, which is
    not before 2.5 s. *)
Theorem greeting_complete_fires_once (env : environment) :
  (forall start sched r,
      (length (closings (listenForResponses env start sched r).2) <= 1)%nat
      /\ (listenForResponses env start sched r).1.1 <> Panicked)
  /\ (forall now c st r,
         CloseSendQuestion ∈ (listen_step env now c st r).2 ->
         c = TimeAfter /\ agentSpeaking st = true /\ greetingComplete st = false
         /\ silenceThreshold < now - lastAudioTime st)
  /\ (reliable env ->
      exists t,
        closings (listenForResponses env 0 greeting_script empty_recorder).2 = [t]
        /\ t = 2600 * Millisecond
        /\ 2500 * Millisecond <= t
        /\ silenceThreshold < t - 500 * Millisecond).
Proof.
  split; [|split].
  - intros start sched r. unfold listenForResponses. split.
    + exact (listen_run_closings env sched (listen_init start) r).
    + apply listen_run_no_panic. cbn. discriminate.
  - intros now c st r Hin.
    destruct (listen_step_close env now c st r Hin) as (H1 & H2 & H3 & H4 & _). auto.
  - intros Hrel. exists (2600 * Millisecond). unfold listenForResponses.
    rewrite (listen_run_reliable env greeting_script Hrel).
    split; [exact greeting_script_run|].
    split; [reflexivity|]. unfold silenceThreshold, Second, Millisecond. lia.
Qed.

Lemma greeting_complete_fires_once_witness :
  reliable quiet_env
  /\ closings (listenForResponses quiet_env 0 greeting_script empty_recorder).2
     = [2600 * Millisecond].
Proof.
  split; [exact reliable_quiet_env|].
  destruct (proj2 (proj2 (greeting_complete_fires_once quiet_env)) reliable_quiet_env)
    as (t & Hclose & Ht & _).
  rewrite Hclose, Ht. reflexivity.
Defined.



(** ** The goroutines of a session *)

Section session_claims.
Import goroutines invariants.

(** C8.  In every run of a session the messages sent to the mailbox are, in
    the order of arrival, the messages decoded from the frames read, but for
    the last one while [read] holds it or if [read] gave it up on
    cancellation; frames of unknown type and malformed frames leave no
    message; what was received and what the mailbox holds are, in that
    order, what was sent.  And a read error takes [read] out of its loop for
    good: after it no frame is read and no message sent, and the deferred
    [s.cancel()] is ready where it has not yet cancelled the context. *)
Theorem reader_keeps_arrival_order (conn0 : websocket.Conn) (moves : list move)
    (s : system) :
  websocket.closed conn0 = None ->
  exec (init conn0) moves = Some s ->
  (exists held,
      decoded (frames s) = pushed s ++ held
      /\ (length held <= 1)%nat
      /\ (rd s = RSelect \/ rd s = RRead -> held = []))
  /\ received s ++ mailbox s = pushed s
  /\ (forall before err after mid,
         moves = before ++ ReaderRead (inl err) :: after ->
         exec (init conn0) before = Some mid ->
         reader_left (rd s) = true
         /\ frames s = frames mid /\ pushed s = pushed mid
         /\ (ctx_done s = true
             \/ exists s', step s ReaderCancel = Some s' /\ ctx_done s' = true)).
Proof.
  intros Hopen Hrun.
  destruct (reachable_invariants conn0 _ s Hopen Hrun)
    as [Hsync ((held & Hdec & Hheld) & Hfifo & _)].
  split; [|split].
  - exists held. split; [exact Hdec|]. split.
    + destruct (rd s); subst; cbn; lia.
    + intros [Hr|Hr]; rewrite Hr in Hheld; exact Hheld.
  - symmetry. exact Hfifo.
  - intros before err after mid -> Hmid.
    rewrite exec_app, Hmid in Hrun. cbn [exec] in Hrun.
    destruct (step mid (ReaderRead (inl err))) as [s1|] eqn:Hs1; [|discriminate].
    destruct (read_error_step mid err s1 Hs1) as (Hrd1 & Hf1 & Hp1).
    assert (Hleft1 : reader_left (rd s1) = true) by (rewrite Hrd1; reflexivity).
    destruct (reader_left_exec after s1 s Hleft1 Hrun) as (Hl & Hf & Hp).
    rewrite Hf, Hp, Hf1, Hp1. split; [exact Hl|]. split; [reflexivity|].
    split; [reflexivity|].
    destruct Hsync as (_ & Hcancelled & _).
    destruct (rd s) eqn:Hr; try discriminate.
    + right. apply reader_cancel_ready. exact Hr.
    + left. apply Hcancelled. reflexivity.
    + left. apply Hcancelled. reflexivity.
Qed.

Lemma reader_keeps_arrival_order_witness :
  websocket.closed websocket.dialed = None
  /\ exec (init websocket.dialed) read_run = Some read_run_end
  /\ pushed read_run_end = [clear_message; agent_media]
  /\ (exists held,
         decoded (frames read_run_end) = pushed read_run_end ++ held
         /\ (length held <= 1)%nat
         /\ (rd read_run_end = RSelect \/ rd read_run_end = RRead -> held = []))
  /\ received read_run_end ++ mailbox read_run_end = pushed read_run_end
  /\ reader_left (rd read_run_end) = true
  /\ frames read_run_end = frames frames_run_end
  /\ pushed read_run_end = pushed frames_run_end.
Proof.
  assert (Hrun : exec (init websocket.dialed) read_run = Some read_run_end)
    by reflexivity.
  split; [reflexivity|]. split; [exact Hrun|]. split; [reflexivity|].
  destruct (reader_keeps_arrival_order websocket.dialed read_run read_run_end
              eq_refl Hrun) as (Horder & Hfifo & Herr).
  split; [exact Horder|]. split; [exact Hfifo|].
  destruct (Herr frames_run (TransportError "connection reset") [PingerTick None]
              frames_run_end eq_refl eq_refl) as (Hl & Hf & Hp & _).
  split; [exact Hl|]. split; [exact Hf|exact Hp].
Defined.



End session_claims.

(** * Further properties *)

(** ** The codec *)

Section codec_more.


Lemma object_into_event {T : Type} (field : string -> json -> T -> error + T)
    (ev : T -> MessageType) :
  (forall key v m m',
      field key v m = inr m' ->
      genericMsg_field key v (genericMsg.mk (ev m)) = inr (genericMsg.mk (ev m'))) ->
  forall members m m',
    object_into field members m = inr m' ->
    object_into genericMsg_field members (genericMsg.mk (ev m))
    = inr (genericMsg.mk (ev m')).
Proof.
  intros Hf members. induction members as [|[key v] rest IH]; intros m m' H; cbn in *.
  - injection H as <-. reflexivity.
  - destruct (field key v m) as [err|m1] eqn:Hm1; [discriminate|].
    rewrite (Hf key v m m1 Hm1). exact (IH m1 m' H).
Qed.

Ltac event_field :=
  unfold genericMsg_field;
  cbn [genericMsg.Event AckMessage.Event MediaOutputMessage.Event ClearMessage.Event
       DTMFMessage.Event CustomMessage.Event];
  repeat match goal with
         | |- context [binds ?k ?n] => destruct (binds k n)
         | |- context [into_string ?t ?c ?v] => destruct (into_string t c v)
         | |- context [into_StreamConfig ?c ?v] => destruct (into_StreamConfig c v)
         | |- context [into_Media ?c ?v] => destruct (into_Media c v)
         | |- context [into_Metadata ?c ?v] => destruct (into_Metadata c v)
         end;
  cbn; intros H; try discriminate; injection H as <-; reflexivity.

Lemma AckMessage_field_event key v m m' :
  AckMessage_field key v m = inr m' ->
  genericMsg_field key v (genericMsg.mk (AckMessage.Event m))
  = inr (genericMsg.mk (AckMessage.Event m')).
Proof. destruct m as [ev sid cfg]. unfold AckMessage_field. event_field. Qed.

Lemma MediaOutputMessage_field_event key v m m' :
  MediaOutputMessage_field key v m = inr m' ->
  genericMsg_field key v (genericMsg.mk (MediaOutputMessage.Event m))
  = inr (genericMsg.mk (MediaOutputMessage.Event m')).
Proof. destruct m as [ev sid media]. unfold MediaOutputMessage_field. event_field. Qed.

Lemma ClearMessage_field_event key v m m' :
  ClearMessage_field key v m = inr m' ->
  genericMsg_field key v (genericMsg.mk (ClearMessage.Event m))
  = inr (genericMsg.mk (ClearMessage.Event m')).
Proof. destruct m as [ev sid]. unfold ClearMessage_field. event_field. Qed.

Lemma DTMFMessage_field_event key v m m' :
  DTMFMessage_field key v m = inr m' ->
  genericMsg_field key v (genericMsg.mk (DTMFMessage.Event m))
  = inr (genericMsg.mk (DTMFMessage.Event m')).
Proof. destruct m as [ev sid dtmf]. unfold DTMFMessage_field. event_field. Qed.

Lemma CustomMessage_field_event key v m m' :
  CustomMessage_field key v m = inr m' ->
  genericMsg_field key v (genericMsg.mk (CustomMessage.Event m))
  = inr (genericMsg.mk (CustomMessage.Event m')).
Proof. destruct m as [ev sid md]. unfold CustomMessage_field. event_field. Qed.

Ltac decoded_case Hg H lem :=
  match type of H with
  | context [struct_into ?n ?f ?z (JObject ?ms)] =>
      let m' := fresh "m'" in
      let Hm := fresh "Hm" in
      let He := fresh "He" in
      cbn [struct_into] in H;
      destruct (object_into f ms z) as [?|m'] eqn:Hm; cbn in H; [discriminate|];
      injection H as <-;
      pose proof (eq_trans (eq_sym Hg) (object_into_event f _ lem ms z m' Hm)) as He;
      injection He as He;
      unfold discriminator, into_genericMsg; cbn [json_Unmarshal struct_into];
      rewrite Hg; cbn;
      repeat split; try (rewrite <- He; reflexivity);
      apply list_elem_of_In; cbn; tauto
  end.

Lemma decoded_message_facts (d : data) (msg : Message) :
  UnmarshalMessage d = inr msg ->
  discriminator d = inr (Message_Type msg)
  /\ Message_Event msg = Message_Type msg
  /\ Message_Type msg ∈ dispatched.
Proof.
  intros H. unfold UnmarshalMessage in H.
  destruct d as [|doc]; [discriminate|]. cbn [json_Unmarshal] in H.
  destruct (into_genericMsg genericMsg.zero doc) as [e|[event]] eqn:Hg; [discriminate|].
  cbn [genericMsg.Event] in H. unfold into_genericMsg in Hg.
  destruct doc as [| | | | |members];
    try (cbn in Hg; discriminate);
    try (cbn in Hg; injection Hg as <-; cbn in H; discriminate).
  cbn [struct_into] in Hg.
  destruct (String.eqb event MessageTypeAck) eqn:E1;
    [apply String.eqb_eq in E1; subst event; cbn [into_Message] in H;
     decoded_case Hg H AckMessage_field_event|].
  destruct (String.eqb event MessageTypeMediaOutput) eqn:E2;
    [apply String.eqb_eq in E2; subst event; cbn [into_Message] in H;
     decoded_case Hg H MediaOutputMessage_field_event|].
  destruct (String.eqb event MessageTypeClear) eqn:E3;
    [apply String.eqb_eq in E3; subst event; cbn [into_Message] in H;
     decoded_case Hg H ClearMessage_field_event|].
  destruct (String.eqb event MessageTypeDTMF) eqn:E4;
    [apply String.eqb_eq in E4; subst event; cbn [into_Message] in H;
     decoded_case Hg H DTMFMessage_field_event|].
  destruct (String.eqb event MessageTypeCustom) eqn:E5;
    [apply String.eqb_eq in E5; subst event; cbn [into_Message] in H;
     decoded_case Hg H CustomMessage_field_event|].
  discriminate.
Qed.

(** X2.  A message that [UnmarshalMessage] returns is of the variant the
    discriminator of the frame names, one of the five of the dispatch, and
    its [Event] field holds that discriminator. *)
Theorem decoded_message_has_its_discriminator (d : data) (msg : Message) :
  UnmarshalMessage d = inr msg ->
  discriminator d = inr (Message_Type msg)
  /\ Message_Event msg = Message_Type msg
  /\ Message_Type msg ∈ dispatched.
Proof. exact (decoded_message_facts d msg). Qed.

Lemma decoded_message_has_its_discriminator_witness :
  UnmarshalMessage bare_ack
  = inr (Ack (AckMessage.mk MessageTypeAck "" (StreamConfig.mk "")))
  /\ discriminator bare_ack = inr MessageTypeAck.
Proof.
  assert (H : UnmarshalMessage bare_ack
              = inr (Ack (AckMessage.mk MessageTypeAck "" (StreamConfig.mk ""))))
    by reflexivity.
  split; [exact H|].
  exact (proj1 (decoded_message_has_its_discriminator bare_ack _ H)).
Defined.

(** X3.  What came out of the decoder goes through the encoder and the decoder
    unchanged. *)
Theorem decoded_messages_round_trip (d : data) (msg : Message) :
  UnmarshalMessage d = inr msg -> decode_encode_Message msg = inr msg.
Proof.
  intros H. destruct (decoded_message_facts d msg H) as (_ & Hev & Hin).
  exact (decode_encode_dispatched msg Hev Hin).
Qed.

Lemma decoded_messages_round_trip_witness :
  UnmarshalMessage bare_ack
  = inr (Ack (AckMessage.mk MessageTypeAck "" (StreamConfig.mk "")))
  /\ decode_encode_Message (Ack (AckMessage.mk MessageTypeAck "" (StreamConfig.mk "")))
     = inr (Ack (AckMessage.mk MessageTypeAck "" (StreamConfig.mk ""))).
Proof.
  split; [reflexivity|].
  exact (decoded_messages_round_trip bare_ack _ eq_refl).
Defined.






Lemma object_into_no_event (members : list (string * json)) (g : genericMsg.t) :
  Forall (fun kv => binds kv.1 "event" = false) members ->
  object_into genericMsg_field members g = inr g.
Proof.
  induction 1 as [|[k v] rest Hk _ IH]; cbn; [reflexivity|].
  unfold genericMsg_field at 1. cbn in Hk. rewrite Hk. exact IH.
Qed.

(** X5.  Frames [UnmarshalMessage] turns down before it looks at a field: bytes
    that are no JSON, with a syntax error; a JSON value that is neither an
    object nor [null], with an error of its kind; and [null], and an object
    none of whose members is an event (the empty object among them), as of
    unknown type. *)
Theorem frames_without_a_discriminator :
  UnmarshalMessage Invalid = inl SyntaxError
  /\ UnmarshalMessage (Valid JNull) = inl ErrUnknownMessageType
  /\ (forall doc,
         is_object doc = false -> doc <> JNull ->
         UnmarshalMessage (Valid doc)
         = inl (UnmarshalTypeError (kind_of doc) "struct { Event main.MessageType }"))
  /\ (forall members,
         Forall (fun kv => binds kv.1 "event" = false) members ->
         UnmarshalMessage (Valid (JObject members)) = inl ErrUnknownMessageType).
Proof.
  split; [reflexivity|]. split; [reflexivity|]. split.
  - intros doc Hobj Hnull. destruct doc; try discriminate; try reflexivity.
    congruence.
  - intros members Hm. unfold UnmarshalMessage, into_genericMsg.
    cbn [json_Unmarshal struct_into]. rewrite (object_into_no_event members _ Hm).
    reflexivity.
Qed.

Lemma frames_without_a_discriminator_witness :
  UnmarshalMessage (Valid (JArray [JString "ack"]))
  = inl (UnmarshalTypeError "array" "struct { Event main.MessageType }")
  /\ UnmarshalMessage (Valid (JObject [("stream_id", JString "s")]))
     = inl ErrUnknownMessageType.
Proof.
  destruct frames_without_a_discriminator as (_ & _ & Hkind & Hnone).
  split.
  - apply (Hkind (JArray [JString "ack"])); [reflexivity|discriminate].
  - apply (Hnone [("stream_id", JString "s")]). repeat constructor.
Defined.

End codec_more.

(** ** The goroutines of a session *)

Section goroutines_more.
Import goroutines invariants.

(** X6.  The mailbox never holds more than its ten messages.  When it is full the
    send of [read] is not taken, and [read] keeps the message; when there is
    room the message goes to the end of the queue. *)
Theorem mailbox_stays_within_capacity (conn0 : websocket.Conn) (moves : list move)
    (s : system) :
  exec (init conn0) moves = Some s ->
  (length (mailbox s) <= 10)%nat
  /\ (forall m, rd s = RPush m -> length (mailbox s) = 10%nat ->
                step s ReaderPush = None)
  /\ (forall m, rd s = RPush m -> (length (mailbox s) < 10)%nat ->
                exists s', step s ReaderPush = Some s'
                           /\ mailbox s' = mailbox s ++ [m] /\ rd s' = RSelect).
Proof.
  intros Hrun.
  pose proof (exec_invariant ordered ordered_step moves _ _ (ordered_init conn0) Hrun)
    as (_ & _ & Hcap).
  split; [exact Hcap|]. destruct s as [cd w mb so r p c fr pu re]. cbn in *. split.
  - intros m -> Hfull. destruct (decide (length mb < capacity)%nat) as [Hlt|];
      [unfold capacity in Hlt; lia|reflexivity].
  - intros m -> Hroom. destruct (decide (length mb < capacity)%nat) as [|Hge];
      [|unfold capacity in Hge; lia].
    eexists. split; [reflexivity|]. split; reflexivity.
Qed.

Lemma mailbox_stays_within_capacity_witness :
  exec (init websocket.dialed) full_run = Some full_run_end
  /\ length (mailbox full_run_end) = 10%nat
  /\ rd full_run_end = RPush clear_message
  /\ step full_run_end ReaderPush = None.
Proof.
  assert (Hrun : exec (init websocket.dialed) full_run = Some full_run_end)
    by reflexivity.
  split; [exact Hrun|]. split; [reflexivity|]. split; [reflexivity|].
  destruct (mailbox_stays_within_capacity websocket.dialed full_run full_run_end Hrun)
    as (_ & Hfull & _).
  exact (Hfull clear_message eq_refl eq_refl).
Defined.

(** X7.  The counter of the wait group is the number of the goroutines that have
    not called [Done]: two at most, and at least one wherever a [Done] is
    about to be called, so that it never goes below zero. *)
Theorem wait_group_counts_the_goroutines (conn0 : websocket.Conn) (moves : list move)
    (s : system) :
  websocket.closed conn0 = None ->
  exec (init conn0) moves = Some s ->
  wg s = ((if reader_exited (rd s) then 0 else 1)
          + (if pinger_exited (pg s) then 0 else 1))%nat
  /\ (wg s <= 2)%nat
  /\ (rd s = RDone \/ pg s = PDone -> (1 <= wg s)%nat).
Proof.
  intros Hopen Hrun.
  destruct (reachable_invariants conn0 moves s Hopen Hrun) as [(Hwg & _) _].
  unfold live_reader, live_pinger in Hwg. split; [exact Hwg|]. rewrite Hwg. split.
  - destruct (reader_exited (rd s)), (pinger_exited (pg s)); cbn; lia.
  - intros [Hr|Hp]; [rewrite Hr|rewrite Hp]; cbn.
    + lia.
    + destruct (reader_exited (rd s)); cbn; lia.
Qed.

Lemma wait_group_counts_the_goroutines_witness :
  exec (init websocket.dialed) read_run = Some read_run_end
  /\ wg read_run_end = 2%nat.
Proof.
  assert (Hrun : exec (init websocket.dialed) read_run = Some read_run_end)
    by reflexivity.
  split; [exact Hrun|].
  rewrite (proj1 (wait_group_counts_the_goroutines websocket.dialed read_run
                    read_run_end eq_refl Hrun)).
  reflexivity.
Defined.



End goroutines_more.

(** ** The session and the handshake *)

Section session_more.

Context (env : environment).



(** X11.  [NewSession] returns a session exactly when the dial gives an open
    connection, the network takes the start message, and the first message
    received is an acknowledgment, whatever stream identifier and input
    format that acknowledgment carries.  The session then has the identifier
    drawn, on the connection the start message is the one frame written
    since the dial, the context is not cancelled and both goroutines run.
    And no session is made exactly when the dial fails. *)
Theorem NewSession_succeeds_exactly_when (c : Client) (h : handshake)
    (metadata : Metadata) (s : session) :
  (returned (NewSession env c h metadata) = inr s
   <-> exists conn0 ack,
         dial h = inr conn0 /\ websocket.closed conn0 = None
         /\ network env (websocket.written conn0) (start_frame c h metadata) = None
         /\ first h = inr (Ack ack)
         /\ s = {| streamID := uuid h;
                   conn := websocket.mk (websocket.written conn0
                                           ++ [start_frame c h metadata]) None;
                   cancelled := false; workers := 2 |})
  /\ (made (NewSession env c h metadata) = None <-> exists err, dial h = inl err).
Proof.
  unfold NewSession, newSession, session_Send, json_Marshal, websocket.Write, start_frame.
  destruct (dial h) as [derr|[wr clo]] eqn:Hdial; cbn -[json_of_Message].
  - split; split.
    + discriminate.
    + intros (conn0 & ack & H & _). discriminate.
    + eauto.
    + reflexivity.
  - assert (Hmade : forall P : Prop, (exists err : error, @inr error websocket.Conn
                       (websocket.mk wr clo) = inl err) -> P).
    { intros P [err H]. discriminate. }
    destruct clo as [code|]; cbn -[json_of_Message].
    + unfold session_Close, websocket.Close. cbn. split; split.
      * discriminate.
      * intros (conn0 & ack & H & Hopen & _). injection H as <-. discriminate.
      * discriminate.
      * apply Hmade.
    + destruct (network env wr _) as [why|] eqn:Hnet; cbn -[json_of_Message].
      * unfold session_Close, websocket.Close. cbn. split; split.
        -- discriminate.
        -- intros (conn0 & ack & H & _ & Hn & _). injection H as <-.
           pose proof (eq_trans (eq_sym Hnet) Hn) as Hno. discriminate.
        -- discriminate.
        -- apply Hmade.
      * destruct (first h) as [e|[m|ack|m|m|m|m|m]] eqn:Hfirst; cbn -[json_of_Message];
          (split; split;
           [try discriminate
           |try (intros (conn0 & ack' & _ & _ & _ & Hf & _); discriminate)
           |try discriminate
           |try apply Hmade]).
        -- intros H. injection H as <-. exists (websocket.mk wr None), ack.
           repeat split; auto.
        -- intros (conn0 & ack' & H & _ & _ & _ & ->). injection H as <-. reflexivity.
Qed.

End session_more.


(** The acknowledgment is not compared with what was sent. *)
Lemma NewSession_succeeds_exactly_when_witness :
  exists s, returned (NewSession quiet_env example_client foreign_ack None) = inr s
            /\ streamID s = "stream".
Proof.
  eexists. split.
  - apply (proj1 (NewSession_succeeds_exactly_when quiet_env example_client
                    foreign_ack None _)).
    exists websocket.dialed, (AckMessage.mk MessageTypeAck "other"
                                (StreamConfig.mk InputFormatMulaw8000)).
    repeat split; reflexivity.
  - reflexivity.
Defined.

(** ** The samples of the recorder *)

Section samples.
Import base64.

Lemma bytesToInt16_pair (b0 b1 : byte) (rest : list byte) :
  bytesToInt16 (b0 :: b1 :: rest) = int16 (Uint16 [b0; b1]) :: bytesToInt16 rest.
Proof.
  unfold bytesToInt16. cbn [length].
  replace (S (S (length rest)) / 2)%nat with (S (length rest / 2))
    by (change (S (S (length rest))) with (1 * 2 + length rest)%nat;
        rewrite Nat.div_add_l by lia; reflexivity).
  cbn [seq map]. f_equal. rewrite <- seq_shift, map_map. apply map_ext.
  intros i. reflexivity.
Qed.

Lemma bytesToInt16_short (b : byte) : bytesToInt16 [] = [] /\ bytesToInt16 [b] = [].
Proof. split; reflexivity. Qed.

Lemma Uint16_range (b0 b1 : byte) :
  Uint16 [b0; b1] = Z_of_byte b0 + 256 * Z_of_byte b1
  /\ 0 <= Uint16 [b0; b1] < 65536.
Proof.
  unfold Uint16.
  assert (H0 : 0 <= Z_of_byte b0 < 256)
    by (unfold Z_of_byte; pose proof (Byte.to_N_bounded b0); lia).
  assert (H1 : 0 <= Z_of_byte b1 < 256)
    by (unfold Z_of_byte; pose proof (Byte.to_N_bounded b1); lia).
  assert (Hdisj : Z.land (Z_of_byte b0) (Z.shiftl (Z_of_byte b1) 8) = 0).
  { rewrite (Z_of_byte_land b0). Z.bitblast.
    match goal with |- context [Z.testbit _ ?l] =>
      rewrite (Z.testbit_neg_r _ l) by lia end.
    apply andb_false_r. }
  rewrite (Z.or_to_plus _ _ Hdisj), Z.shiftl_mul_pow2 by lia.
  change (2 ^ 8) with 256. lia.
Qed.

Lemma int16_range (v : Z) : -32768 <= int16 v <= 32767.
Proof. unfold int16. pose proof (Z.mod_pos_bound (v + 32768) 65536). lia. Qed.

Lemma int16_inj (v w : Z) :
  0 <= v < 65536 -> 0 <= w < 65536 -> int16 v = int16 w -> v = w.
Proof.
  unfold int16. intros Hv Hw H.
  assert (Hm : (v + 32768) mod 65536 = (w + 32768) mod 65536) by lia.
  clear H. revert Hm.
  destruct (Z_lt_le_dec v 32768), (Z_lt_le_dec w 32768).
  - rewrite !Z.mod_small by lia. lia.
  - rewrite (Z.mod_small (v + 32768)) by lia.
    replace (w + 32768) with ((w - 32768) + 1 * 65536) by lia.
    rewrite Z.mod_add, Z.mod_small by lia. lia.
  - rewrite (Z.mod_small (w + 32768)) by lia.
    replace (v + 32768) with ((v - 32768) + 1 * 65536) by lia.
    rewrite Z.mod_add, Z.mod_small by lia. lia.
  - replace (w + 32768) with ((w - 32768) + 1 * 65536) by lia.
    replace (v + 32768) with ((v - 32768) + 1 * 65536) by lia.
    rewrite !Z.mod_add, !Z.mod_small by lia. lia.
Qed.

Lemma Z_of_byte_inj (a b : byte) : Z_of_byte a = Z_of_byte b -> a = b.
Proof.
  intros H. rewrite <- (byte_of_Z_of_byte a), <- (byte_of_Z_of_byte b), H. reflexivity.
Qed.

Lemma sample_inj (a0 a1 b0 b1 : byte) :
  int16 (Uint16 [a0; a1]) = int16 (Uint16 [b0; b1]) -> a0 = b0 /\ a1 = b1.
Proof.
  intros H.
  destruct (Uint16_range a0 a1) as [Ha Hra]. destruct (Uint16_range b0 b1) as [Hb Hrb].
  apply int16_inj in H; [|exact Hra|exact Hrb]. rewrite Ha, Hb in H.
  assert (H0 : 0 <= Z_of_byte a0 < 256)
    by (unfold Z_of_byte; pose proof (Byte.to_N_bounded a0); lia).
  assert (H1 : 0 <= Z_of_byte b0 < 256)
    by (unfold Z_of_byte; pose proof (Byte.to_N_bounded b0); lia).
  split; apply Z_of_byte_inj; lia.
Qed.

Lemma bytesToInt16_app (d1 d2 : list byte) :
  Nat.Even (length d1) ->
  bytesToInt16 (d1 ++ d2) = bytesToInt16 d1 ++ bytesToInt16 d2.
Proof.
  revert d1. fix IH 1. intros [|a [|b rest]] Hev.
  - reflexivity.
  - exfalso. destruct Hev as [k Hk]. cbn in Hk. lia.
  - cbn [app]. rewrite !bytesToInt16_pair. cbn [app]. f_equal. apply IH.
    destruct Hev as [k Hk]. cbn in Hk. exists (k - 1)%nat. lia.
Qed.

Lemma bytesToInt16_inj (d1 : list byte) :
  forall d2,
    Nat.Even (length d1) -> Nat.Even (length d2) ->
    bytesToInt16 d1 = bytesToInt16 d2 -> d1 = d2.
Proof.
  revert d1. fix IH 1. intros [|a0 [|a1 rest1]] d2 He1 He2 H.
  - destruct d2 as [|b0 [|b1 rest2]]; [reflexivity| |].
    + exfalso. destruct He2 as [k Hk]. cbn in Hk. lia.
    + rewrite bytesToInt16_pair in H. discriminate.
  - exfalso. destruct He1 as [k Hk]. cbn in Hk. lia.
  - destruct d2 as [|b0 [|b1 rest2]].
    + rewrite bytesToInt16_pair in H. discriminate.
    + exfalso. destruct He2 as [k Hk]. cbn in Hk. lia.
    + rewrite !bytesToInt16_pair in H. injection H as Hs Hrest.
      destruct (sample_inj _ _ _ _ Hs) as [-> ->]. do 2 f_equal.
      apply IH; [| |exact Hrest].
      * destruct He1 as [k Hk]. cbn in Hk. exists (k - 1)%nat. lia.
      * destruct He2 as [k Hk]. cbn in Hk. exists (k - 1)%nat. lia.
Qed.

(** X12.  [bytesToInt16] reads the bytes two by two: it gives half as many
    samples as there are bytes, a last odd byte left out; every sample is
    within the range of an [int16]; and two buffers of even length with the
    same samples are the same buffer. *)
Theorem bytesToInt16_reads_pairs (data : list byte) :
  length (bytesToInt16 data) = (length data / 2)%nat
  /\ Forall (fun s => -32768 <= s <= 32767) (bytesToInt16 data)
  /\ (forall b, Nat.Even (length data) ->
                bytesToInt16 (data ++ [b]) = bytesToInt16 data)
  /\ (forall data', Nat.Even (length data) -> Nat.Even (length data') ->
                    bytesToInt16 data = bytesToInt16 data' -> data = data').
Proof.
  split; [|split; [|split]].
  - unfold bytesToInt16. rewrite length_map, length_seq. reflexivity.
  - unfold bytesToInt16. apply Forall_forall. intros s Hs.
    apply list_elem_of_In, in_map_iff in Hs as (i & <- & _). apply int16_range.
  - intros b Hev. rewrite (bytesToInt16_app data [b] Hev). cbn. apply app_nil_r.
  - intros data' He He'. apply bytesToInt16_inj; assumption.
Qed.

Lemma bytesToInt16_reads_pairs_witness :
  Nat.Even (length [x34; x12; xff; xff])
  /\ bytesToInt16 [x34; x12; xff; xff; x00] = [4660; -1].
Proof.
  assert (Hev : Nat.Even (length [x34; x12; xff; xff])) by (exists 2%nat; reflexivity).
  split; [exact Hev|].
  exact (eq_trans
           (proj1 (proj2 (proj2 (bytesToInt16_reads_pairs [x34; x12; xff; xff])))
              x00 Hev)
           eq_refl).
Defined.

Lemma write_frames_prefix (samples : list Z) (leftCh : bool) (n : nat) :
  (n <= length samples)%nat ->
  fold_left (write_frame samples leftCh) (seq 0 n)
            (replicate (length samples * 2) 0)
  = flat_map (fun s => if leftCh then [s; 0] else [0; s]) (take n samples)
    ++ replicate ((length samples - n) * 2) 0.
Proof.
  induction n as [|n IH]; intros Hn.
  - cbn. rewrite Nat.sub_0_r. reflexivity.
  - rewrite seq_S, fold_left_app, IH by lia. cbn [fold_left Nat.add].
    destruct (lookup_lt_is_Some_2 samples n) as [s Hs]; [lia|].
    rewrite (take_S_r samples n s Hs), flat_map_app. cbn [flat_map].
    set (done := flat_map (fun s0 => if leftCh then [s0; 0] else [0; s0]) (take n samples)).
    assert (Hlen : length done = (n * 2)%nat).
    { unfold done. clear -Hn. assert (Ht : length (take n samples) = n)
        by (rewrite length_take; lia).
      revert Ht. generalize (take n samples). clear Hn. intros l. revert n.
      induction l as [|x l IHl]; intros n Hl; cbn in *; [lia|].
      destruct n as [|n]; [discriminate|]. injection Hl as Hl.
      rewrite length_app, (IHl n Hl). destruct leftCh; cbn; lia. }
    replace ((length samples - n) * 2)%nat with (S (S ((length samples - S n) * 2)))
      by lia.
    unfold write_frame. rewrite Hs. cbn [default replicate].
    replace (n * 2)%nat with (length done + 0)%nat by lia.
    replace (length done + 0 + 1)%nat with (length done + 1)%nat by lia.
    destruct leftCh; rewrite !insert_app_r; cbn [app];
      rewrite <- app_assoc; reflexivity.
Qed.

Lemma channels_frames (samples : list Z) (leftCh : bool) :
  channels (flat_map (fun s => if leftCh then [s; 0] else [0; s]) samples)
  = if leftCh then (samples, replicate (length samples) 0)
    else (replicate (length samples) 0, samples).
Proof.
  induction samples as [|s samples IH]; [destruct leftCh; reflexivity|].
  cbn [flat_map]. destruct leftCh; cbn [app channels]; rewrite IH; reflexivity.
Qed.

(** X13.  The buffer [writeChannel] hands to the encoder has one frame of two
    numbers for every sample of the data: the sample on the channel written
    and zero on the other.  So its left channel, when the left one is
    written, is the samples and its right channel is silence, and the other
    way round. *)
Theorem writeChannel_keeps_the_other_channel_silent (data : list byte) :
  interleaved data true = flat_map (fun s => [s; 0]) (bytesToInt16 data)
  /\ interleaved data false = flat_map (fun s => [0; s]) (bytesToInt16 data)
  /\ channels (interleaved data true)
     = (bytesToInt16 data, replicate (length data / 2) 0)
  /\ channels (interleaved data false)
     = (replicate (length data / 2) 0, bytesToInt16 data).
Proof.
  assert (Hl : forall leftCh,
             interleaved data leftCh
             = flat_map (fun s => if leftCh then [s; 0] else [0; s]) (bytesToInt16 data)).
  { intros leftCh. unfold interleaved.
    rewrite (write_frames_prefix (bytesToInt16 data) leftCh _ (Nat.le_refl _)).
    rewrite Nat.sub_diag, take_ge by lia. apply app_nil_r. }
  assert (Hn : length (bytesToInt16 data) = (length data / 2)%nat)
    by (unfold bytesToInt16; rewrite length_map, length_seq; reflexivity).
  split; [exact (Hl true)|]. split; [exact (Hl false)|].
  rewrite (Hl true), (Hl false), (channels_frames _ true), (channels_frames _ false), Hn.
  split; reflexivity.
Qed.

Lemma chunks_samples (audioData : list byte) (fuel : nat) :
  forall offset : Z,
    0 <= offset ->
    (1 <= fuel)%nat ->
    len audioData - offset <= (Z.of_nat fuel - 1) * CHUNK_SIZE ->
    concat (map bytesToInt16 (chunks_from fuel audioData offset))
    = bytesToInt16 (drop (Z.to_nat offset) audioData).
Proof.
  induction fuel as [|fuel IH]; intros offset Hoff Hone Hfuel; [lia|].
  cbn [chunks_from]. destruct (offset <? len audioData) eqn:Hlt.
  - apply Z.ltb_lt in Hlt. cbn [map concat].
    rewrite IH by (unfold CHUNK_SIZE in *; lia).
    unfold slice.
    destruct (Z.le_ge_cases (offset + CHUNK_SIZE) (len audioData)) as [Hle|Hge].
    + rewrite Z.min_l by exact Hle.
      replace (Z.to_nat (offset + CHUNK_SIZE - offset)) with (Z.to_nat CHUNK_SIZE) by lia.
      replace (Z.to_nat (offset + CHUNK_SIZE))
        with (Z.to_nat offset + Z.to_nat CHUNK_SIZE)%nat by (unfold CHUNK_SIZE; lia).
      rewrite <- drop_drop.
      rewrite <- (take_drop (Z.to_nat CHUNK_SIZE) (drop (Z.to_nat offset) audioData)) at 3.
      symmetry. apply bytesToInt16_app.
      rewrite length_take, length_drop. exists 4410%nat.
      unfold len, CHUNK_SIZE in *. lia.
    + rewrite Z.min_r by exact Hge.
      rewrite (drop_ge audioData (Z.to_nat (offset + CHUNK_SIZE)))
        by (unfold len, CHUNK_SIZE in *; lia).
      change (bytesToInt16 []) with (@nil Z). rewrite app_nil_r. f_equal.
      apply take_ge. rewrite length_drop. unfold len in *. lia.
  - apply Z.ltb_ge in Hlt. cbn. rewrite drop_ge by (unfold len in *; lia). reflexivity.
Qed.

(** X14.  The chunks of the first loop of [sendAudioFile] have an even number of
    bytes, but for the last one: recorded chunk by chunk they give the
    samples of the whole buffer, none split between two chunks. *)
Theorem chunks_record_the_samples_of_the_buffer (audioData : list byte) :
  concat (map bytesToInt16 (chunks_from (S (length audioData)) audioData 0))
  = bytesToInt16 audioData.
Proof.
  rewrite chunks_samples; [reflexivity|lia|lia|]. unfold len, CHUNK_SIZE. lia.
Qed.

End samples.

(** ** The audio file on its way to the agent *)

Section sending.

Context (env : environment).

Lemma chunks_from_sizes (audioData : list byte) (fuel : nat) :
  forall offset : Z,
    0 <= offset ->
    Forall (fun c => 0 < len c <= CHUNK_SIZE) (chunks_from fuel audioData offset).
Proof.
  induction fuel as [|fuel IH]; intros offset Hoff; cbn [chunks_from]; [constructor|].
  destruct (offset <? len audioData) eqn:Hlt; [|constructor].
  apply Z.ltb_lt in Hlt. constructor; [|apply IH; unfold CHUNK_SIZE; lia].
  rewrite slice_length by (unfold CHUNK_SIZE; lia). unfold CHUNK_SIZE. lia.
Qed.

Lemma chunks_from_full (audioData : list byte) (fuel : nat) :
  forall (offset : Z) (i : nat) (c : list byte),
    0 <= offset ->
    chunks_from fuel audioData offset !! i = Some c ->
    (S i < length (chunks_from fuel audioData offset))%nat ->
    len c = CHUNK_SIZE.
Proof.
  induction fuel as [|fuel IH]; intros offset i c Hoff Hc Hi; cbn [chunks_from] in *;
    [discriminate|].
  destruct (offset <? len audioData) eqn:Hlt; [|discriminate].
  apply Z.ltb_lt in Hlt. destruct i as [|i].
  - cbn in Hc. injection Hc as <-. cbn [length] in Hi.
    destruct fuel as [|fuel]; cbn [chunks_from length] in Hi; [lia|].
    destruct (offset + CHUNK_SIZE <? len audioData) eqn:Hnext; [|cbn in Hi; lia].
    apply Z.ltb_lt in Hnext.
    rewrite slice_length by (unfold CHUNK_SIZE in *; lia). lia.
  - cbn in Hc, Hi. apply (IH (offset + CHUNK_SIZE) i c); [unfold CHUNK_SIZE; lia|exact Hc|lia].
Qed.

Lemma chunks_from_count (audioData : list byte) (fuel : nat) :
  forall offset : Z,
    0 <= offset <= len audioData + CHUNK_SIZE - 1 ->
    (1 <= fuel)%nat ->
    len audioData - offset <= (Z.of_nat fuel - 1) * CHUNK_SIZE ->
    Z.of_nat (length (chunks_from fuel audioData offset))
    = (len audioData - offset + CHUNK_SIZE - 1) / CHUNK_SIZE.
Proof.
  induction fuel as [|fuel IH]; intros offset Hoff Hone Hfuel; [lia|].
  cbn [chunks_from]. destruct (offset <? len audioData) eqn:Hlt.
  - apply Z.ltb_lt in Hlt. cbn [length]. rewrite Nat2Z.inj_succ.
    rewrite IH by (unfold CHUNK_SIZE in *; lia).
    replace (len audioData - offset + CHUNK_SIZE - 1)
      with (len audioData - (offset + CHUNK_SIZE) + CHUNK_SIZE - 1 + 1 * CHUNK_SIZE) by lia.
    rewrite Z.div_add by (unfold CHUNK_SIZE; lia). lia.
  - apply Z.ltb_ge in Hlt. cbn [length]. symmetry. apply Z.div_small.
    unfold CHUNK_SIZE in *. lia.
Qed.

(** X15.  The first loop of [sendAudioFile] cuts any buffer into chunks that, put
    together, are the buffer: none is empty, none has more than 8820 bytes,
    all but the last have exactly 8820, and there are as many as the length
    divided by 8820, rounded up. *)
Theorem chunks_of_any_buffer (audioData : list byte) :
  let chunks := chunks_from (S (length audioData)) audioData 0 in
  concat chunks = audioData
  /\ Forall (fun c => 0 < len c <= CHUNK_SIZE) chunks
  /\ (forall i c, chunks !! i = Some c -> (S i < length chunks)%nat ->
                  len c = CHUNK_SIZE)
  /\ Z.of_nat (length chunks) = (len audioData + CHUNK_SIZE - 1) / CHUNK_SIZE.
Proof.
  cbv zeta.
  assert (Hfuel : len audioData - 0 <= (Z.of_nat (S (length audioData)) - 1) * CHUNK_SIZE)
    by (unfold len, CHUNK_SIZE; lia).
  split; [|split; [|split]].
  - rewrite concat_chunks_from by (lia || exact Hfuel). reflexivity.
  - apply chunks_from_sizes. lia.
  - intros i c. apply chunks_from_full. lia.
  - rewrite chunks_from_count; [f_equal; lia| |lia|exact Hfuel].
    unfold len, CHUNK_SIZE. lia.
Qed.

Lemma session_Send_cases (s : session) (m : Message) :
  (websocket.closed (conn s) = None
   /\ session_Send env s m
      = (None, {| streamID := streamID s;
                  conn := websocket.mk (websocket.written (conn s)
                                          ++ [Valid (json_of_Message m)]) None;
                  cancelled := cancelled s; workers := workers s |}))
  \/ (exists err, session_Send env s m = (Some err, s)).
Proof.
  destruct s as [sid [wr clo] cd w].
  unfold session_Send, json_Marshal, websocket.Write. cbn.
  destruct clo as [code|]; cbn; [right; eauto|].
  destruct (network env wr (Valid (json_of_Message m))) as [why|]; cbn;
    [right; eauto|left; auto].
Qed.

Lemma WriteLeft_cases (r : DualChannelRecorder) (buf : list byte) :
  WriteLeft env r buf
  = (None, {| left_channel := left_channel r ++ [buf];
              right_channel := right_channel r |})
  \/ (exists err, WriteLeft env r buf = (Some err, r)).
Proof.
  unfold WriteLeft. destruct (disk env _ _ buf); [right; eauto|left; reflexivity].
Qed.

(** What the first loop has written when it returns, whatever failed: the
    frames of the first [k] chunks, all of them when there is no error; and
    the recorder has the same chunks, or one more. *)
Ltac returned_now :=
  repeat split; intros; try reflexivity; try lia; try discriminate;
  try (match goal with H : Some _ = Some _ |- _ => injection H as <- end; eauto).

Lemma send_chunks_prefix (audioData : list byte) (fuel : nat) :
  forall (offset : Z) (w : world) (res : option error) (w' : world),
    send_chunks env fuel audioData offset w = Some (res, w') ->
    exists k k' : nat,
      websocket.written (conn (sess w'))
      = websocket.written (conn (sess w))
        ++ take k (map (frame_of (streamID (sess w))) (chunks_from fuel audioData offset))
      /\ left_channel (recorder w')
         = left_channel (recorder w) ++ take k' (chunks_from fuel audioData offset)
      /\ (k <= k' <= S k)%nat
      /\ (k <= length (chunks_from fuel audioData offset))%nat
      /\ streamID (sess w') = streamID (sess w)
      /\ websocket.closed (conn (sess w')) = websocket.closed (conn (sess w))
      /\ (res = None ->
          k = length (chunks_from fuel audioData offset) /\ k' = k
          /\ slept w' = slept w + 10 * Millisecond * Z.of_nat k)
      /\ (forall err, res = Some err ->
            exists cause, err = Errorf "write audio error: %w" (Some cause)
                          \/ err = Errorf "send audio error: %w" (Some cause)).
Proof.
  induction fuel as [|fuel IH]; intros offset w res w' Hrun; [discriminate|].
  cbn [send_chunks chunks_from] in *.
  destruct (offset <? len audioData) eqn:Hlt.
  2:{ injection Hrun as <- <-. exists 0%nat, 0%nat. cbn. rewrite !app_nil_r.
      returned_now. }
  set (chunk := slice audioData offset (Z.min (offset + CHUNK_SIZE) (len audioData))) in *.
  destruct (WriteLeft_cases (recorder w) chunk) as [Hw|[err Hw]]; rewrite Hw in Hrun.
  2:{ injection Hrun as <- <-. exists 0%nat, 0%nat. cbn. rewrite !app_nil_r.
      returned_now. }
  cbn [with_recorder sess recorder] in Hrun. unfold session_StreamID in Hrun.
  destruct (session_Send_cases (sess w)
              (media_input (streamID (sess w)) chunk)) as [[Hopen Hs]|[err Hs]];
    rewrite Hs in Hrun.
  2:{ injection Hrun as <- <-. exists 0%nat, 1%nat. cbn. rewrite !app_nil_r.
      returned_now. }
  apply IH in Hrun as (k & k' & Hwr & Hl & Hk & Hkl & Hsid & Hclo & Hnone & Herr).
  cbn [sess recorder conn streamID with_sess with_recorder Sleep websocket.written
       websocket.closed left_channel right_channel slept] in Hwr, Hl, Hsid, Hclo, Hnone.
  exists (S k), (S k'). cbn [map take]. rewrite Hwr, Hl, Hsid, Hclo, Hopen, <- !app_assoc.
  cbn [app]. unfold frame_of at 2.
  split; [reflexivity|]. split; [reflexivity|]. split; [lia|].
  split; [cbn [length]; lia|].
  split; [reflexivity|]. split; [reflexivity|]. split; [|exact Herr].
  intros H. destruct (Hnone H) as (-> & -> & ->). cbn [length].
  split; [reflexivity|]. split; [reflexivity|]. cbn. lia.
Qed.

Lemma send_silence_prefix (n : nat) :
  forall (w : world) (res : option error) (w' : world),
    send_silence env n w = (res, w') ->
    exists k : nat,
      (k <= n)%nat
      /\ websocket.written (conn (sess w'))
         = websocket.written (conn (sess w))
           ++ replicate k (frame_of (streamID (sess w)) silenceChunk)
      /\ streamID (sess w') = streamID (sess w)
      /\ (res = None -> k = n)
      /\ (forall err, res = Some err ->
            exists cause, err = Errorf "send silence error: %w" (Some cause)).
Proof.
  induction n as [|n IH]; intros w res w' Hrun; cbn [send_silence] in Hrun.
  - injection Hrun as <- <-. exists 0%nat. cbn. rewrite app_nil_r. returned_now.
  - destruct (WriteLeft env (recorder w) _) as [dres r].
    cbn [with_recorder sess recorder] in Hrun. unfold session_StreamID in Hrun.
    fold silenceChunk in Hrun.
    destruct (session_Send_cases (sess w)
                (media_input (streamID (sess w)) silenceChunk)) as [[Hopen Hs]|[err Hs]];
      rewrite Hs in Hrun.
    + apply IH in Hrun as (k & Hk & Hwr & Hsid & Hnone & Herr).
      cbn [sess recorder conn streamID with_sess with_recorder Sleep websocket.written
           websocket.closed] in Hwr, Hsid.
      exists (S k). rewrite Hwr, Hsid, <- app_assoc. cbn [replicate app].
      split; [lia|]. split; [reflexivity|]. split; [reflexivity|].
      split; [|exact Herr]. intros H. rewrite (Hnone H). reflexivity.
    + injection Hrun as <- <-. exists 0%nat. cbn. rewrite app_nil_r. returned_now.
Qed.

Lemma audio_frames_frame_of (sid : string) (audioData : list byte) :
  audio_frames sid audioData = map (frame_of sid) (audio_chunks audioData).
Proof. reflexivity. Qed.

(** X16.  Whatever fails and whenever, what [sendAudioFile] has written to the
    connection when it returns is a beginning of the frames of the audio
    followed by the ten frames of silence, in that order; all of them when
    it returns no error; and an error it returns tells, wrapped around its
    cause, which of the three steps failed. *)
Theorem sendAudioFile_sends_a_prefix (audioData : list byte) (w : world)
    (res : option error) (w' : world) :
  sendAudioFile env (inr audioData) w = Some (res, w') ->
  exists k : nat,
    websocket.written (conn (sess w'))
    = websocket.written (conn (sess w))
      ++ take k (audio_frames (streamID (sess w)) audioData)
    /\ (res = None -> k = length (audio_frames (streamID (sess w)) audioData))
    /\ (forall err, res = Some err ->
          exists cause,
            err = Errorf "write audio error: %w" (Some cause)
            \/ err = Errorf "send audio error: %w" (Some cause)
            \/ err = Errorf "send silence error: %w" (Some cause)).
Proof.
  unfold sendAudioFile. intros Hrun.
  destruct (send_chunks env (S (length audioData)) audioData 0 w)
    as [[[err|] w1]|] eqn:Hchunks; [| |discriminate].
  - injection Hrun as <- <-.
    destruct (send_chunks_prefix _ _ _ _ _ _ Hchunks)
      as (k & k' & Hwr & _ & _ & Hkl & _ & _ & _ & Herr).
    exists k. rewrite Hwr, audio_frames_frame_of. unfold audio_chunks.
    rewrite map_app, take_app_le by (rewrite length_map; exact Hkl).
    split; [reflexivity|]. split; [discriminate|].
    intros e H. injection H as <-. destruct (Herr err eq_refl) as (cause & [H|H]); eauto.
  - destruct (send_chunks_prefix _ _ _ _ _ _ Hchunks)
      as (k & k' & Hwr & _ & _ & _ & Hsid & _ & Hnone & _).
    destruct (Hnone eq_refl) as (-> & _ & _).
    rewrite firstn_all2 in Hwr by (rewrite length_map; lia).
    destruct (send_silence env 10 w1) as [res1 w2] eqn:Hsil. injection Hrun as <- <-.
    destruct (send_silence_prefix _ _ _ _ Hsil) as (k2 & Hk2 & Hwr2 & _ & Hnone2 & Herr2).
    exists (length (chunks_from (S (length audioData)) audioData 0) + k2)%nat.
    rewrite Hwr2, Hwr, Hsid, audio_frames_frame_of. unfold audio_chunks.
    rewrite map_app, <- app_assoc.
    assert (Htake : forall (l1 l2 : list data) n,
               take (length l1 + n) (l1 ++ l2) = l1 ++ take n l2)
      by (intros l1 l2 n; rewrite take_app_add; reflexivity).
    rewrite <- (length_map (frame_of (streamID (sess w)))), Htake.
    rewrite fmap_replicate, take_replicate, Nat.min_l by exact Hk2.
    split; [reflexivity|]. split.
    + intros H. rewrite (Hnone2 H), length_app, length_replicate. reflexivity.
    + intros e H. destruct (Herr2 e H) as [cause ->]. eauto.
Qed.

Lemma send_silence_network_up (n : nat) :
  network_up env ->
  forall w : world,
    websocket.closed (conn (sess w)) = None ->
    exists w',
      send_silence env n w = (None, w')
      /\ websocket.written (conn (sess w'))
         = websocket.written (conn (sess w))
           ++ replicate n (frame_of (streamID (sess w)) silenceChunk)
      /\ websocket.closed (conn (sess w')) = None
      /\ streamID (sess w') = streamID (sess w)
      /\ slept w' = slept w + 10 * Millisecond * Z.of_nat n
      /\ right_channel (recorder w') = right_channel (recorder w)
      /\ ((forall l r buf, disk env l r buf = None) ->
          left_channel (recorder w')
          = left_channel (recorder w) ++ replicate n silenceChunk).
Proof.
  intros Hnet. induction n as [|n IH]; intros w Hopen; cbn [send_silence].
  - exists w. cbn. rewrite !app_nil_r. repeat split; try reflexivity; try lia.
    exact Hopen.
  - fold silenceChunk.
    destruct (WriteLeft_cases (recorder w) silenceChunk) as [Hw|[err Hw]]; rewrite Hw;
      cbn [with_recorder sess recorder]; unfold session_StreamID;
      (destruct (session_Send_cases (sess w)
                   (media_input (streamID (sess w)) silenceChunk))
         as [[_ Hs]|[e Hs]];
       [|exfalso; revert Hs; unfold session_Send, json_Marshal, websocket.Write;
         rewrite Hopen, Hnet; discriminate]);
      rewrite Hs;
      match goal with |- context [send_silence env n ?w0] =>
        destruct (IH w0 eq_refl) as (w' & Hrun & Hwr & Hclo & Hsid & Hsl & Hright & Hleft) end;
      cbn [sess recorder conn streamID with_sess with_recorder Sleep websocket.written
           websocket.closed left_channel right_channel slept] in Hwr, Hsid, Hsl, Hright, Hleft;
      exists w'; rewrite Hrun, Hwr, Hsid, Hsl, <- app_assoc; cbn [replicate app];
      (split; [reflexivity|]); (split; [reflexivity|]); (split; [exact Hclo|]);
      (split; [reflexivity|]); (split; [lia|]); (split; [exact Hright|]); intros Hdisk.
    + rewrite (Hleft Hdisk), <- app_assoc. reflexivity.
    + exfalso. revert Hw. unfold WriteLeft. rewrite Hdisk. discriminate.
Qed.

(** X17.  When no write fails, [sendAudioFile] returns no error, and then it has
    sent the audio and the silence after it, every chunk to the recorder's
    left channel and in a frame to the agent, with a pause of ten
    milliseconds after each; the right channel is not written; and the
    chunks put end to end are the audio followed by 88,200 zero bytes. *)
Theorem sendAudioFile_sends_audio_then_silence (audioData : list byte) (w : world) :
  reliable env ->
  websocket.closed (conn (sess w)) = None ->
  exists w',
    sendAudioFile env (inr audioData) w = Some (None, w')
    /\ websocket.written (conn (sess w'))
       = websocket.written (conn (sess w)) ++ audio_frames (streamID (sess w)) audioData
    /\ left_channel (recorder w') = left_channel (recorder w) ++ audio_chunks audioData
    /\ right_channel (recorder w') = right_channel (recorder w)
    /\ slept w' = slept w + 10 * Millisecond * Z.of_nat (length (audio_chunks audioData))
    /\ concat (audio_chunks audioData) = audioData ++ repeat x00 (Z.to_nat (10 * CHUNK_SIZE)).
Proof.
  intros Hrel Hopen. unfold sendAudioFile.
  assert (Hfuel : len audioData - 0 <= (Z.of_nat (S (length audioData)) - 1) * CHUNK_SIZE)
    by (unfold len, CHUNK_SIZE; lia).
  destruct (send_chunks_reliable env audioData (S (length audioData)) Hrel 0 w Hopen
              (Z.le_refl 0) (le_n_S _ _ (Nat.le_0_l _)) Hfuel)
    as (w1 & Hrun1 & Hl1 & Hr1 & Hw1 & Hc1 & Hs1).
  destruct (send_chunks_prefix _ _ _ _ _ _ Hrun1) as (k & k' & _ & _ & _ & _ & _ & _ & Hnone & _).
  destruct (Hnone eq_refl) as (-> & _ & Hsl1).
  rewrite Hrun1.
  destruct (send_silence_network_up 10 (proj1 Hrel) w1 Hc1)
    as (w2 & Hrun2 & Hw2 & _ & _ & Hsl2 & Hr2 & Hl2).
  exists w2. rewrite Hrun2, Hw2, Hw1, Hs1, (Hl2 (proj2 Hrel)), Hl1, Hr2, Hr1, Hsl2, Hsl1.
  rewrite audio_frames_frame_of. unfold audio_chunks, frame_of.
  rewrite map_app, fmap_replicate, <- !app_assoc, length_app, length_replicate, concat_app.
  rewrite concat_chunks_from by (lia || exact Hfuel).
  split; [reflexivity|]. split; [reflexivity|]. split; [reflexivity|].
  split; [reflexivity|]. split; [lia|].
  cbn [Z.to_nat drop]. f_equal.
Qed.

(** X18.  A file with no audio after its 44 bytes of header, or shorter than
    that, is no error: [readWAVData] gives an empty buffer, and
    [sendAudioFile] sends the ten frames of silence and nothing else.  It
    does so whatever the recorder returns: in the second loop the error of
    [WriteLeft] is dropped. *)
Theorem sendAudioFile_of_a_file_without_audio (f : file) (w : world) :
  network_up env ->
  websocket.closed (conn (sess w)) = None ->
  seek_error f = None -> read_error f = None ->
  (length (content f) <= 44)%nat ->
  readWAVData (inr f) = inr []
  /\ exists w',
       sendAudioFile env (readWAVData (inr f)) w = Some (None, w')
       /\ websocket.written (conn (sess w'))
          = websocket.written (conn (sess w))
            ++ replicate 10 (frame_of (streamID (sess w)) silenceChunk).
Proof.
  intros Hnet Hopen Hseek Hread Hshort.
  assert (Hwav : readWAVData (inr f) = inr []).
  { unfold readWAVData. rewrite Hseek, Hread, drop_ge by exact Hshort. reflexivity. }
  split; [exact Hwav|]. rewrite Hwav. unfold sendAudioFile. cbn [length send_chunks].
  change (0 <? len []) with false. cbv iota.
  destruct (send_silence_network_up 10 Hnet w Hopen) as (w' & Hrun & Hwr & _).
  exists w'. rewrite Hrun. split; [reflexivity|exact Hwr].
Qed.

End sending.

Lemma chunks_of_any_buffer_witness :
  let audioData := repeat x00 (Z.to_nat 10000) in
  let chunks := chunks_from (S (length audioData)) audioData 0 in
  chunks !! 0%nat = Some (repeat x00 (Z.to_nat 8820))
  /\ (1 < length chunks)%nat
  /\ len (repeat x00 (Z.to_nat 8820)) = CHUNK_SIZE.
Proof.
  cbv zeta.
  assert (H0 : chunks_from (S (length (repeat x00 (Z.to_nat 10000))))
                 (repeat x00 (Z.to_nat 10000)) 0 !! 0%nat
               = Some (repeat x00 (Z.to_nat 8820))) by (vm_compute; reflexivity).
  assert (H1 : (1 < length (chunks_from (S (length (repeat x00 (Z.to_nat 10000))))
                              (repeat x00 (Z.to_nat 10000)) 0))%nat)
    by (vm_compute; lia).
  split; [exact H0|]. split; [exact H1|].
  exact (proj1 (proj2 (proj2 (chunks_of_any_buffer (repeat x00 (Z.to_nat 10000)))))
           0%nat _ H0 H1).
Defined.

Lemma sendAudioFile_sends_a_prefix_witness :
  exists (res : option error) (w' : world),
    sendAudioFile refusing_env (inr [x01; x02]) example_world = Some (res, w')
    /\ exists k : nat,
         websocket.written (conn (sess w'))
         = websocket.written (conn (sess example_world))
           ++ take k (audio_frames (streamID (sess example_world)) [x01; x02])
         /\ (res = None
             -> k = length (audio_frames (streamID (sess example_world)) [x01; x02]))
         /\ (forall err, res = Some err ->
               exists cause,
                 err = Errorf "write audio error: %w" (Some cause)
                 \/ err = Errorf "send audio error: %w" (Some cause)
                 \/ err = Errorf "send silence error: %w" (Some cause)).
Proof.
  eexists. eexists. split; [reflexivity|].
  exact (sendAudioFile_sends_a_prefix refusing_env [x01; x02] example_world _ _ eq_refl).
Defined.

Lemma sendAudioFile_sends_audio_then_silence_witness :
  reliable quiet_env
  /\ exists w',
       sendAudioFile quiet_env (inr [x01; x02; x03]) example_world = Some (None, w')
       /\ length (websocket.written (conn (sess w'))) = 11%nat
       /\ left_channel (recorder w') = audio_chunks [x01; x02; x03]
       /\ slept w' = 110 * Millisecond.
Proof.
  split; [exact reliable_quiet_env|].
  destruct (sendAudioFile_sends_audio_then_silence quiet_env [x01; x02; x03] example_world
              reliable_quiet_env eq_refl) as (w' & Hrun & Hw & Hl & _ & Hs & _).
  exists w'. split; [exact Hrun|]. rewrite Hw, Hl, Hs. repeat split; reflexivity.
Defined.

Lemma sendAudioFile_of_a_file_without_audio_witness :
  network_up full_disk_env
  /\ readWAVData (inr header_only) = inr []
  /\ exists w',
       sendAudioFile full_disk_env (readWAVData (inr header_only)) example_world
       = Some (None, w')
       /\ length (websocket.written (conn (sess w'))) = 10%nat.
Proof.
  assert (Hnet : network_up full_disk_env) by (intros hist d; reflexivity).
  split; [exact Hnet|].
  destruct (sendAudioFile_of_a_file_without_audio full_disk_env header_only example_world
              Hnet eq_refl eq_refl eq_refl (Nat.le_refl 44)) as (Hwav & w' & Hrun & Hwr).
  split; [exact Hwav|]. exists w'. split; [exact Hrun|].
  rewrite Hwr. reflexivity.
Defined.

(** ** The turn-taking controller, further *)

Section controller_more.

Context (env : environment).

Ltac timer_cases st now :=
  let gc := fresh "gc" in let qs := fresh "qs" in let sp := fresh "sp" in
  let lt := fresh "lt" in let qn := fresh "qn" in let sc := fresh "sc" in
  let Hlt := fresh "Hlt" in let Hrt := fresh "Hrt" in
  destruct st as [gc qs sp lt qn sc];
  cbn -[Z.ltb silenceThreshold responseTimeout];
  destruct (silenceThreshold <? now - lt) eqn:Hlt;
  destruct (responseTimeout <? now - lt) eqn:Hrt;
  [apply Z.ltb_lt in Hlt; apply Z.ltb_lt in Hrt
  |apply Z.ltb_lt in Hlt; apply Z.ltb_ge in Hrt
  |apply Z.ltb_ge in Hlt; apply Z.ltb_lt in Hrt
  |apply Z.ltb_ge in Hlt; apply Z.ltb_ge in Hrt];
  destruct sp, gc, sc, qs; cbn.


(** A message without audio leaves the variables and the recorder as they
    are; at most a line is logged. *)
Lemma listen_step_inaudible (now : Z) (c : select_case) (st : turn)
    (r : DualChannelRecorder) :
  inaudible c = true ->
  exists eff, listen_step env now c st r = (Continue st, r, eff)
              /\ Forall (fun e => remark e = true) eff.
Proof.
  destruct c as [[msg|]| | |e]; try discriminate.
  destruct msg as [m|m|m|m|m|m|m]; cbn [listen_step inaudible agent_audio];
    try (intros _; eexists; split; [reflexivity|repeat constructor]).
  destruct (base64.DecodeString _) as [err|audioData];
    [intros _; eexists; split; [reflexivity|repeat constructor]|].
  destruct (0 <? len audioData); [discriminate|].
  intros _; eexists; split; [reflexivity|repeat constructor].
Qed.






(** What a round does to the recorder. *)
Lemma listen_step_recorder (now : Z) (c : select_case) (st : turn)
    (r : DualChannelRecorder) :
  left_channel (listen_step env now c st r).1.2 = left_channel r
  /\ right_channel (listen_step env now c st r).1.2
     = right_channel r
       ++ match (listen_step env now c st r).1.1 with
          | Continue _ => option_list (agent_audio c)
          | _ => []
          end.
Proof.
  destruct c as [[msg|]| | |e].
  - destruct msg as [m|m|m|m|m|m|m]; cbn [listen_step agent_audio fst snd option_list];
      try (rewrite app_nil_r; split; reflexivity).
    destruct (base64.DecodeString _) as [err|audioData];
      [cbn; rewrite app_nil_r; split; reflexivity|].
    destruct (0 <? len audioData); [|cbn; rewrite app_nil_r; split; reflexivity].
    unfold WriteRight. destruct (disk env _ _ audioData); cbn;
      [rewrite app_nil_r|]; split; reflexivity.
  - cbn. rewrite app_nil_r. split; reflexivity.
  - cbn [listen_step]. destruct (questionComplete_nil st);
      [|destruct (negb (questionSent st))]; cbn; rewrite app_nil_r; split; reflexivity.
  - timer_cases st now; rewrite app_nil_r; split; reflexivity.
  - cbn. rewrite app_nil_r. split; reflexivity.
Qed.

Lemma listen_run_recorder (sched : list (Z * select_case)) :
  forall (st : turn) (r : DualChannelRecorder),
    left_channel (listen_run env sched st r).1.2 = left_channel r
    /\ exists k : nat,
         right_channel (listen_run env sched st r).1.2
         = right_channel r ++ take k (omap (fun ev => agent_audio ev.2) sched)
         /\ forall st', (listen_run env sched st r).1.1 = Waiting st' ->
                        k = length (omap (fun ev => agent_audio ev.2) sched).
Proof.
  induction sched as [|[now c] rest IH]; intros st r.
  - split; [reflexivity|]. exists 0%nat. cbn. rewrite app_nil_r. auto.
  - cbn [listen_run omap list_omap].
    destruct (listen_step_recorder now c st r) as [Hl Hr].
    destruct (listen_step env now c st r) as [[[st'| | |] r'] eff]; cbn [fst snd] in *.
    2,3,4: split; [exact Hl|]; exists 0%nat; rewrite Hr; cbn [take];
           split; [reflexivity|discriminate].
    destruct (IH st' r') as (Hl' & k & Hr' & Hk).
    destruct (listen_run env rest st' r') as [[e r''] effs]. cbn [fst snd] in *.
    split; [congruence|]. rewrite Hr', Hr. change (agent_audio (now, c).2) with (agent_audio c).
    destruct (agent_audio c) as [a|]; cbn [option_list].
    + exists (S k). rewrite <- app_assoc. cbn [take app length].
      split; [reflexivity|]. intros st0 H. rewrite (Hk st0 H). reflexivity.
    + exists k. rewrite app_nil_r. split; [reflexivity|exact Hk].
Qed.

(** X20.  The controller writes to the right channel of the recording, and never
    to the left: at every moment of a run the right channel has grown by
    the audio of the media-output messages received so far, in the order
    in which they came, each payload decoded and the empty and the
    undecodable ones left out. *)
Theorem agent_audio_is_recorded_in_order (sched : list (Z * select_case))
    (st : turn) (r : DualChannelRecorder) :
  left_channel (listen_run env sched st r).1.2 = left_channel r
  /\ exists k : nat,
       right_channel (listen_run env sched st r).1.2
       = right_channel r ++ take k (omap (fun ev => agent_audio ev.2) sched)
       /\ forall st', (listen_run env sched st r).1.1 = Waiting st' ->
                      k = length (omap (fun ev => agent_audio ev.2) sched).
Proof. apply listen_run_recorder. Qed.

(** The rounds that return an error. *)
Lemma listen_step_error (now : Z) (c : select_case) (st : turn)
    (r : DualChannelRecorder) (err : error) :
  (listen_step env now c st r).1.1 = Return (Some err) ->
  (c = MessagesRecv None /\ err = Errorf "message channel closed" None)
  \/ (exists audioData why,
         agent_audio c = Some audioData
         /\ disk env (left_channel r) (right_channel r) audioData = Some why
         /\ err = Errorf "write audio error: %w" (Some (RecorderError why)))
  \/ (exists e, c = CtxDone e /\ err = CtxError e).
Proof.
  destruct c as [[msg|]| | |e].
  - destruct msg as [m|m|m|m|m|m|m]; cbn [listen_step agent_audio fst snd];
      try discriminate.
    destruct (base64.DecodeString _) as [e|audioData]; [discriminate|].
    destruct (0 <? len audioData); [|discriminate].
    unfold WriteRight. destruct (disk env _ _ audioData) as [why|] eqn:Hd; [|discriminate].
    cbn. intros H. injection H as <-. right. left. eauto.
  - cbn. intros H. injection H as <-. left. auto.
  - cbn [listen_step]. destruct (questionComplete_nil st);
      [|destruct (negb (questionSent st))]; discriminate.
  - timer_cases st now; discriminate.
  - cbn. intros H. injection H as <-. right. right. eauto.
Qed.

Lemma listen_run_error (sched : list (Z * select_case)) :
  forall (st : turn) (r : DualChannelRecorder) (err : error),
    (listen_run env sched st r).1.1 = Returned (Some err) ->
    exists now c,
      (now, c) ∈ sched
      /\ ((c = MessagesRecv None /\ err = Errorf "message channel closed" None)
          \/ (exists audioData why,
                 agent_audio c = Some audioData
                 /\ err = Errorf "write audio error: %w" (Some (RecorderError why)))
          \/ (exists e, c = CtxDone e /\ err = CtxError e)).
Proof.
  induction sched as [|[now c] rest IH]; intros st r err; [discriminate|].
  cbn [listen_run]. pose proof (listen_step_error now c st r err) as Hstep.
  destruct (listen_step env now c st r) as [[[st'| | |] r'] eff]; cbn [fst snd] in *;
    try discriminate.
  - specialize (IH st' r' err).
    destruct (listen_run env rest st' r') as [[e r''] effs]. cbn [fst snd] in *.
    intros H. destruct (IH H) as (now' & c' & Hin & Hc).
    exists now', c'. split; [right; exact Hin|exact Hc].
  - intros H. injection H as ->. exists now, c. split; [left|].
    destruct (Hstep eq_refl) as [H|[(a & why & Ha & _ & He)|H]]; eauto 6.
Qed.

(** X21.  [listenForResponses] returns an error in three cases and no other: the
    channel of messages was closed, the recorder refused the audio of a
    media-output message, and then the error is wrapped, or the context was
    done, and then the error is the context's own.  So with a recorder that
    takes what it is given, a session that stays open and a context that is
    not cancelled, it returns no error. *)
Theorem listenForResponses_errors (start : Z) (sched : list (Z * select_case))
    (r : DualChannelRecorder) :
  (forall err,
      (listenForResponses env start sched r).1.1 = Returned (Some err) ->
      exists now c,
        (now, c) ∈ sched
        /\ ((c = MessagesRecv None /\ err = Errorf "message channel closed" None)
            \/ (exists audioData why,
                   agent_audio c = Some audioData
                   /\ err = Errorf "write audio error: %w" (Some (RecorderError why)))
            \/ (exists e, c = CtxDone e /\ err = CtxError e)))
  /\ (reliable env ->
      Forall (fun ev => ev.2 <> MessagesRecv None /\ forall e, ev.2 <> CtxDone e) sched ->
      forall err, (listenForResponses env start sched r).1.1 <> Returned (Some err)).
Proof.
  split; [intros err; apply listen_run_error|].
  intros Hrel Hsched err Hrun. unfold listenForResponses in Hrun.
  rewrite (listen_run_reliable env sched Hrel) in Hrun.
  revert Hrun Hsched. generalize (listen_init start) as st. revert r.
  induction sched as [|[now c] rest IH]; intros r st Hrun Hsched; [discriminate|].
  apply Forall_cons in Hsched as [[Hopen Hctx] Hrest]. cbn [snd] in Hopen, Hctx.
  cbn [listen_run] in Hrun.
  pose proof (listen_step_error now c st r err) as Hstep.
  rewrite (listen_step_reliable env now c st r Hrel) in Hstep.
  destruct (listen_step quiet_env now c st r) as [[[st'| | |] r'] eff]; cbn [fst snd] in *;
    try discriminate.
  - specialize (IH r' st').
    destruct (listen_run quiet_env rest st' r') as [[e r''] effs]. cbn [fst snd] in *.
    exact (IH Hrun Hrest).
  - injection Hrun as ->.
    destruct (Hstep eq_refl) as [[H _]|[(a & why & _ & Hd & _)|(e & H & _)]].
    + exact (Hopen H).
    + rewrite (proj2 Hrel) in Hd. discriminate.
    + exact (Hctx e H).
Qed.

Ltac decide_lines :=
  repeat (destruct (decide _) as [?E|?E];
          [try discriminate E|try (exfalso; apply E; reflexivity)]).

Ltac signals_done :=
  cbn; decide_lines; cbn;
  repeat split; intros;
  repeat match goal with
         | H : Continue _ = Continue _ |- _ => injection H as <-
         end;
  cbn in *;
  first [congruence | lia | left; congruence | right; congruence
        | left; reflexivity | right; reflexivity].

(** The two signals, round by round. *)
Lemma listen_step_signals (now : Z) (c : select_case) (st : turn)
    (r : DualChannelRecorder) :
  let step := listen_step env now c st r in
  let asked := logged LogQuestionSent (map (pair now) step.2) in
  let closed := closings (map (pair now) step.2) in
  (length asked <= if questionSent st then 0 else 1)%nat
  /\ (forall st', step.1.1 = Continue st' ->
        (questionSent st = true -> questionSent st' = true)
        /\ (questionSent st' = true -> questionSent st = true \/ asked <> [])
        /\ (asked <> [] -> questionSent st' = true)
        /\ (greetingComplete st' = true -> greetingComplete st = true \/ closed <> []))
  /\ (step.1.1 = Return None ->
        c = TimeAfter /\ questionSent st = true
        /\ (greetingComplete st = true \/ closed <> [])
        /\ silenceThreshold < now - lastAudioTime st
        /\ asked = []
        /\ (last step.2 = Some (Log LogResponseComplete)
            \/ last step.2 = Some (Log LogNoResponse))).
Proof.
  cbv zeta. destruct st as [gc qs sp lt qn sc].
  destruct c as [[[m|m|m|m|m|m|m]|]| | |e]; cbn [listen_step].
  6:{ destruct (base64.DecodeString _) as [err|audioData];
        [|destruct (0 <? len audioData);
          [destruct (WriteRight env r audioData) as [[err|] r']|]];
        destruct qs; signals_done. }
  9:{ cbn -[Z.ltb silenceThreshold responseTimeout].
      destruct (silenceThreshold <? now - lt) eqn:Hlt;
        destruct (responseTimeout <? now - lt) eqn:Hrt;
        [apply Z.ltb_lt in Hlt; apply Z.ltb_lt in Hrt
        |apply Z.ltb_lt in Hlt; apply Z.ltb_ge in Hrt
        |apply Z.ltb_ge in Hlt; apply Z.ltb_lt in Hrt
        |apply Z.ltb_ge in Hlt; apply Z.ltb_ge in Hrt];
        unfold silenceThreshold, responseTimeout, Second, Millisecond in *;
        destruct sp, gc, sc, qs; signals_done. }
  8:{ destruct qn, qs; signals_done. }
  all: destruct qs; signals_done.
Qed.

Lemma listen_run_asked (sched : list (Z * select_case)) :
  forall (st : turn) (r : DualChannelRecorder),
    (length (logged LogQuestionSent (listen_run env sched st r).2)
     <= if questionSent st then 0 else 1)%nat.
Proof.
  induction sched as [|[now c] rest IH]; intros st r.
  - cbn. destruct (questionSent st); lia.
  - cbn [listen_run].
    destruct (listen_step_signals now c st r) as (Hcount & Hcont & _).
    destruct (listen_step env now c st r) as [[[st'| | |] r'] eff]; cbn [fst snd] in *;
      try exact Hcount.
    specialize (IH st' r'). destruct (Hcont st' eq_refl) as (Hkeep & _ & Hnew & _).
    destruct (listen_run env rest st' r') as [[e r''] effs]. cbn [snd] in *.
    rewrite logged_app, length_app.
    destruct (questionSent st) eqn:Hqs.
    + rewrite (Hkeep eq_refl) in IH. lia.
    + destruct (logged LogQuestionSent (map (pair now) eff)) as [|t l] eqn:Hl.
      * cbn [length]. destruct (questionSent st'); lia.
      * rewrite Hnew in IH by discriminate. lia.
Qed.

Lemma listen_run_nil (sched : list (Z * select_case)) :
  forall (st : turn) (r : DualChannelRecorder),
    (listen_run env sched st r).1.1 = Returned None ->
    (greetingComplete st = true \/ closings (listen_run env sched st r).2 <> [])
    /\ (questionSent st = true
        \/ logged LogQuestionSent (listen_run env sched st r).2 <> [])
    /\ exists now,
         (now, TimeAfter) ∈ sched
         /\ (last (listen_run env sched st r).2 = Some (now, Log LogResponseComplete)
             \/ last (listen_run env sched st r).2 = Some (now, Log LogNoResponse)).
Proof.
  induction sched as [|[now c] rest IH]; intros st r; [discriminate|].
  cbn [listen_run].
  destruct (listen_step_signals now c st r) as (_ & Hcont & Hret).
  destruct (listen_step env now c st r) as [[[st'| | |] r'] eff]; cbn [fst snd] in *;
    try discriminate.
  - specialize (IH st' r'). destruct (Hcont st' eq_refl) as (_ & Hqs & _ & Hgc).
    destruct (listen_run env rest st' r') as [[e r''] effs]. cbn [fst snd] in *.
    intros H. destruct (IH H) as (Hg & Hq & now' & Hin & Hlast).
    rewrite closings_app, logged_app.
    assert (Hne : effs <> []) by (destruct Hlast as [Hl|Hl]; intros ->; discriminate).
    split; [|split].
    + destruct Hg as [Hg|Hg]; [destruct (Hgc Hg) as [Hg'|Hg']; [left; exact Hg'|]|];
        right; intros Happ; apply app_eq_nil in Happ as [H1 H2]; contradiction.
    + destruct Hq as [Hq|Hq]; [destruct (Hqs Hq) as [Hq'|Hq']; [left; exact Hq'|]|];
        right; intros Happ; apply app_eq_nil in Happ as [H1 H2]; contradiction.
    + exists now'. split; [right; exact Hin|].
      rewrite last_app. destruct Hlast as [Hl|Hl]; rewrite Hl; [left|right]; reflexivity.
  - intros H. injection H as ->.
    destruct (Hret eq_refl) as (-> & Hqs & Hgc & _ & _ & Hlast).
    split; [exact Hgc|]. split; [left; exact Hqs|].
    exists now. split; [left|].
    change (map (pair now) eff) with (pair now <$> eff). rewrite fmap_last.
    destruct Hlast as [->| ->]; [left|right]; reflexivity.
Qed.

(** X22.  [listenForResponses] returns nil only when both signals have passed:
    by then it has closed [sendQuestion], once, and has taken the
    question-sent signal, once; it returns nil from a round of the timer
    and from no other, and the last thing it does is to log that the
    response is complete or that there was none. *)
Theorem nil_return_needs_both_signals (start : Z) (sched : list (Z * select_case))
    (r : DualChannelRecorder) :
  (listenForResponses env start sched r).1.1 = Returned None ->
  exists closed asked now,
    closings (listenForResponses env start sched r).2 = [closed]
    /\ logged LogQuestionSent (listenForResponses env start sched r).2 = [asked]
    /\ (now, TimeAfter) ∈ sched
    /\ (last (listenForResponses env start sched r).2 = Some (now, Log LogResponseComplete)
        \/ last (listenForResponses env start sched r).2 = Some (now, Log LogNoResponse)).
Proof.
  unfold listenForResponses. intros Hrun.
  destruct (listen_run_nil sched (listen_init start) r Hrun)
    as ([Hg|Hg] & [Hq|Hq] & now & Hin & Hlast); try discriminate.
  pose proof (listen_run_closings env sched (listen_init start) r) as Hc.
  pose proof (listen_run_asked sched (listen_init start) r) as Ha.
  cbn [listen_init greetingComplete questionSent] in Hc, Ha.
  destruct (closings _) as [|closed [|]]; [contradiction| |cbn in Hc; lia].
  destruct (logged LogQuestionSent _) as [|asked [|]]; [contradiction| |cbn in Ha; lia].
  exists closed, asked, now. auto.
Qed.

(** While the answer is heard, messages without audio and rounds of the
    timer within the silence threshold change nothing. *)
Lemma listen_step_hearing (now : Z) (c : select_case) (st : turn)
    (r : DualChannelRecorder) :
  hearing_response st ->
  inaudible c = true \/ (c = TimeAfter /\ now - lastAudioTime st <= silenceThreshold) ->
  exists eff, listen_step env now c st r = (Continue st, r, eff)
              /\ Forall (fun e => remark e = true) eff.
Proof.
  intros (Hgc & Hqs & Hsp) [Hc|[-> Hnow]]; [exact (listen_step_inaudible now c st r Hc)|].
  destruct st as [gc qs sp lt qn sc]. cbn in Hgc, Hqs, Hsp, Hnow. subst.
  cbn -[Z.ltb silenceThreshold responseTimeout].
  replace (silenceThreshold <? now - lt) with false by (symmetry; apply Z.ltb_ge; lia).
  cbn. eexists. split; [reflexivity|constructor].
Qed.

Lemma listen_run_hearing (pre rest : list (Z * select_case)) (st : turn)
    (r : DualChannelRecorder) :
  hearing_response st ->
  Forall (fun ev => inaudible ev.2 = true
                    \/ (ev.2 = TimeAfter /\ ev.1 - lastAudioTime st <= silenceThreshold))
         pre ->
  exists effs,
    listen_run env (pre ++ rest) st r
    = ((listen_run env rest st r).1.1, (listen_run env rest st r).1.2,
       effs ++ (listen_run env rest st r).2)
    /\ Forall (fun e => remark e.2 = true) effs.
Proof.
  intros Hst Hpre. induction Hpre as [|[now c] pre Hc _ IH].
  - exists []. cbn [app]. destruct (listen_run env rest st r) as [[e r'] effs].
    split; [reflexivity|constructor].
  - cbn [fst snd] in Hc.
    destruct (listen_step_hearing now c st r Hst Hc) as (eff & Hstep & Heff).
    destruct IH as (effs & Hrun & Heffs).
    exists (map (pair now) eff ++ effs). cbn [app listen_run]. rewrite Hstep, Hrun.
    split; [rewrite app_assoc; reflexivity|].
    apply Forall_app. split; [|exact Heffs].
    apply Forall_fmap. eapply Forall_impl; [exact Heff|]. intros e He. exact He.
Qed.

Lemma logged_remarks (line : log_line) (effs : list (Z * effect)) :
  line <> LogDecodeError -> line <> LogClear ->
  Forall (fun e => remark e.2 = true) effs -> logged line effs = [].
Proof.
  intros H1 H2. induction 1 as [|[t e] effs He _ IH]; [reflexivity|].
  cbn in He. destruct e as [[]|]; try discriminate; cbn;
    (destruct (decide _); [congruence|exact IH]).
Qed.

(** X23.  An answer ends by silence: once the greeting is complete and the
    question sent, let a media-output message with audio be received when
    the clock reads [heard_at], let rounds follow that bring no audio (the
    timer, within the two seconds of the silence threshold, and messages
    without audio), and let then the timer be taken when more than two
    seconds have passed since [heard_at].  Then [listenForResponses]
    returns in that round, with a nil error, having recorded the audio and
    logged that the response is complete, and not that there was none. *)
Theorem response_ends_after_silence (st : turn) (r : DualChannelRecorder)
    (c : select_case) (audioData : list byte) (heard_at now : Z)
    (quiet rest : list (Z * select_case)) :
  reliable env ->
  greetingComplete st = true ->
  questionSent st = true ->
  agent_audio c = Some audioData ->
  Forall (fun ev => inaudible ev.2 = true
                    \/ (ev.2 = TimeAfter /\ ev.1 - heard_at <= silenceThreshold)) quiet ->
  silenceThreshold < now - heard_at ->
  let run := listen_run env ((heard_at, c) :: quiet ++ (now, TimeAfter) :: rest) st r in
  run.1.1 = Returned None
  /\ right_channel run.1.2 = right_channel r ++ [audioData]
  /\ logged LogResponseComplete run.2 = [now]
  /\ logged LogNoResponse run.2 = [].
Proof.
  intros Hrel Hgc Hqs Hc Hquiet Hnow.
  assert (Hstep : listen_step env heard_at c st r
                  = (Continue (heard st heard_at),
                     {| left_channel := left_channel r;
                        right_channel := right_channel r ++ [audioData] |}, [])).
  { destruct c as [[[m|m|m|m|m|m|m]|]| | |e]; try discriminate.
    cbn [agent_audio listen_step] in *.
    destruct (base64.DecodeString _) as [err|a]; [discriminate|].
    destruct (0 <? len a); [|discriminate]. injection Hc as ->.
    unfold WriteRight. rewrite (proj2 Hrel). reflexivity. }
  set (st1 := heard st heard_at) in *.
  set (r1 := {| left_channel := left_channel r;
                right_channel := right_channel r ++ [audioData] |}) in *.
  assert (Hst1 : hearing_response st1) by (unfold hearing_response; cbn; auto).
  cbn [listen_run]. rewrite Hstep.
  destruct (listen_run_hearing quiet ((now, TimeAfter) :: rest) st1 r1 Hst1 Hquiet)
    as (effs & Hrun & Heffs).
  rewrite Hrun. cbn [listen_run].
  assert (Hlast : listen_step env now TimeAfter st1 r1
                  = (Return None, r1, [Log LogResponseComplete])).
  { destruct st as [gc qs sp lt qn sc]. cbn in Hgc, Hqs. subst gc qs.
    cbn -[Z.ltb silenceThreshold responseTimeout].
    replace (silenceThreshold <? now - heard_at) with true
      by (symmetry; apply Z.ltb_lt; exact Hnow).
    reflexivity. }
  rewrite Hlast. cbn [fst snd map app].
  split; [reflexivity|]. split; [reflexivity|].
  rewrite !logged_app, !(logged_remarks _ effs) by (discriminate || exact Heffs).
  split; reflexivity.
Qed.

End controller_more.

Lemma conversation_script_run :
  (listenForResponses quiet_env 0 conversation_script empty_recorder).1.1 = Returned None.
Proof. vm_compute. reflexivity. Qed.


Lemma agent_audio_is_recorded_in_order_witness :
  left_channel (listenForResponses quiet_env 0 conversation_script empty_recorder).1.2 = []
  /\ exists k : nat,
       right_channel (listenForResponses quiet_env 0 conversation_script empty_recorder).1.2
       = take k (omap (fun ev => agent_audio ev.2) conversation_script).
Proof.
  destruct (agent_audio_is_recorded_in_order quiet_env conversation_script
              (listen_init 0) empty_recorder) as (Hl & k & Hr & _).
  split; [exact Hl|]. exists k. exact Hr.
Defined.

Lemma listenForResponses_errors_witness :
  reliable quiet_env
  /\ forall err,
       (listenForResponses quiet_env 0 conversation_script empty_recorder).1.1
       <> Returned (Some err).
Proof.
  split; [exact reliable_quiet_env|].
  apply (proj2 (listenForResponses_errors quiet_env 0 conversation_script empty_recorder)
           reliable_quiet_env).
  vm_compute. repeat constructor; intros; discriminate.
Defined.

Lemma nil_return_needs_both_signals_witness :
  exists closed asked now,
    closings (listenForResponses quiet_env 0 conversation_script empty_recorder).2 = [closed]
    /\ logged LogQuestionSent
         (listenForResponses quiet_env 0 conversation_script empty_recorder).2 = [asked]
    /\ (now, TimeAfter) ∈ conversation_script
    /\ (last (listenForResponses quiet_env 0 conversation_script empty_recorder).2
        = Some (now, Log LogResponseComplete)
        \/ last (listenForResponses quiet_env 0 conversation_script empty_recorder).2
           = Some (now, Log LogNoResponse)).
Proof.
  apply (nil_return_needs_both_signals quiet_env 0 conversation_script empty_recorder).
  vm_compute. reflexivity.
Defined.

Lemma response_ends_after_silence_witness :
  let run := listen_run quiet_env
               ((5 * Second, MessagesRecv (Some agent_media))
                  :: [(6 * Second, TimeAfter); (6 * Second, MessagesRecv (Some garbled_media))]
                  ++ (7 * Second + 1, TimeAfter) :: [])
               (question_sent (greeting_done (listen_init 0)) (4 * Second))
               empty_recorder in
  run.1.1 = Returned None
  /\ right_channel run.1.2 = right_channel empty_recorder ++ [[x01; x00]]
  /\ logged LogResponseComplete run.2 = [7 * Second + 1]
  /\ logged LogNoResponse run.2 = [].
Proof.
  apply (response_ends_after_silence quiet_env
           (question_sent (greeting_done (listen_init 0)) (4 * Second)) empty_recorder
           (MessagesRecv (Some agent_media)) [x01; x00] (5 * Second) (7 * Second + 1)
           [(6 * Second, TimeAfter); (6 * Second, MessagesRecv (Some garbled_media))] []).
  - exact reliable_quiet_env.
  - reflexivity.
  - reflexivity.
  - vm_compute. reflexivity.
  - constructor; [|constructor; [|constructor]].
    + right. split; [reflexivity|]. vm_compute. discriminate.
    + left. vm_compute. reflexivity.
  - reflexivity.
Defined.
